(** * Vignetting and clear-aperture setting

    A shallow embedding of [rayoptics/raytr/vigcalc.py]:
    [set_ape], [calc_vignetted_ray], [iterate_pupil_ray] and the objective
    function [r_pupil_coordinate] that the root finder evaluates.

    Numbers are IEEE binary64 ([PrimFloat.float]), which is what a Python
    [float] and a [numpy.float64] are.  The sequential ray tracer
    ([trace.trace_base]) and the root finder ([scipy.optimize.newton]) are
    collaborators of the module and are parameters of the development. *)

From Stdlib Require Import ZArith List Bool Lia PeanoNat Floats.
Import ListNotations.

(** ** Data model *)

(** [xy]: 0 or 1 depending on x or y axis as the pupil direction. *)
Inductive axis : Set := X | Y.

Definition other (xy : axis) : axis :=
  match xy with X => Y | Y => X end.

(** A pupil coordinate, [np.array([x, y])]. *)
Definition pupil : Set := (float * float)%type.

(** [rel_p1[xy]] *)
Definition getc (c : pupil) (xy : axis) : float :=
  match xy with X => fst c | Y => snd c end.

(** [rel_p1[xy] = v] *)
Definition setc (c : pupil) (xy : axis) (v : float) : pupil :=
  match xy with X => (v, snd c) | Y => (fst c, v) end.

Definition vec3 : Set := (float * float * float)%type.

Definition vx (v : vec3) : float := fst (fst v).
Definition vy (v : vec3) : float := snd (fst v).

(** One ray segment: intersection point, direction, distance to the next
    point and surface normal.  [mc.p] selects the first component. *)
Record RaySeg : Set := mkSeg { p : vec3; d : vec3; dst : float; nrml : vec3 }.

Definition Ray : Set := list RaySeg.

(** [ray_pkg = (ray, op_delta, wvl)] *)
Record RayPkg : Set := mkPkg { ray : Ray; op_delta : float; wvl : float }.

(** Modelled from the spec: the classes of [rayoptics.raytr.traceerror] are
    not part of the module; the three failure kinds are the ones the
    specification lists (blocked, missed surface, total internal
    reflection).  [Blocked] stands for a [TraceError] that is neither a
    [TraceMissedSurfaceError] nor a [TraceTIRError]. *)
Inductive failure_kind : Set := Blocked | Missed | TIR.

(** Modelled from the spec: the outcome of one call of [trace.trace_base]:
    a complete ray package, or a typed failure carrying the index of the
    surface where the ray stopped ([te.surf]) and the partial ray
    ([te.ray_pkg]). *)
Inductive TraceOutcome : Set :=
| Traced (pkg : RayPkg)
| Failed (k : failure_kind) (surf : nat) (partial : Ray).

(** What [calc_vignetted_ray] hands back as [ray_pkg]: the package of a
    successful trace or the payload of the last trace error. *)
Inductive ray_result : Set :=
| FullPkg (pkg : RayPkg)
| PartialRay (r : Ray).

(** Modelled from the spec: an interface of the sequential model, with its
    mutable clear aperture and its fixed outer-diameter radius. *)
Record Interface : Set := mkIfc { max_aperture : float; od : float }.

Definition surface_od (ifc : Interface) : float := od ifc.

Definition set_max_aperture (ifc : Interface) (ap : float) : Interface :=
  {| max_aperture := ap; od := od ifc |}.

(** Radial height of a ray segment,
    [sqrt(ray[i].p[0]**2 + ray[i].p[1]**2)]; a square is the IEEE product
    of the number with itself. *)
Definition radial_height (s : RaySeg) : float :=
  PrimFloat.sqrt (vx (p s) * vx (p s) + vy (p s) * vy (p s))%float.

(** ** Exceptions, observable calls and the computation monad *)

(** The exceptions of the module: the trace errors of the tracer, and the
    Python errors its own statements can raise. *)
Inductive exn : Set :=
| TraceError (k : failure_kind) (surf : nat) (partial : Ray)
| IndexError
| UnboundLocalError
| RuntimeError.

(** A statement ends with a value or with an exception. *)
Inductive res (A : Type) : Type :=
| Val (a : A)
| Exc (e : exn).
Arguments Val {A} a.
Arguments Exc {A} e.

(** The calls a search makes to its collaborators, in order. *)
Inductive event : Set :=
| EvTrace (rel_p1 : pupil) (check_apertures : bool)
| EvNewton (x0 : float).

(** A trace made with [check_apertures=True]. *)
Definition is_checked_trace (ev : event) : bool :=
  match ev with EvTrace _ chk => chk | EvNewton _ => false end.

(** [RootResults] of the root finder when called with [full_output=True]. *)
Record RootResults : Set :=
  mkResults { root : float; iterations : nat; function_calls : nat;
              converged : bool }.

(** A root finder called with [disp=False]: it evaluates the objective at
    points of its choice, one after the other, and ends by returning an
    estimate together with its [RootResults]; non-convergence is reported in
    [converged], not raised.  It does not catch what the objective raises. *)
Inductive solver : Type :=
| Return (x : float) (results : RootResults)
| Call (x : float) (k : float -> solver).

Section Search.

(** The tracer may keep state of its own between calls. *)
Context {St : Type}.

(** [trace.trace_base(opm, rel_p1, fld, wvl, apply_vignetting=False,
    check_apertures=chk)] for the fixed model, field and wavelength. *)
Variable trace_base : pupil -> bool -> St -> TraceOutcome * St.

(** [newton(func, x0, args=..., tol=tol, disp=False, full_output=True)] *)
Variable newton : float -> float -> solver.

(** [sm.ifcs] and [sm.stop_surface] *)
Variable ifcs : list Interface.
Variable stop_surface : option nat.

(** What a computation threads along: the state of the tracer and the
    calls made so far. *)
Record world : Type := mkWorld { tracer : St; calls : list event }.

(** A computation: state passing, with a value or an exception at the end. *)
Definition M (A : Type) : Type := world -> res A * world.

Definition ret {A} (a : A) : M A := fun w => (Val a, w).

Definition raise {A} (e : exn) : M A := fun w => (Exc e, w).

Definition bind {A B} (m : M A) (f : A -> M B) : M B :=
  fun w => match m w with
           | (Val a, w') => f a w'
           | (Exc e, w') => (Exc e, w')
           end.

Notation "x <- m ;; f" := (bind m (fun x => f))
  (at level 61, m at next level, right associativity).

Definition emit (ev : event) : M unit :=
  fun w => (Val tt, {| tracer := tracer w; calls := calls w ++ [ev] |}).

(** A call of the tracer: a trace error is an exception. *)
Definition trace_call (rel_p1 : pupil) (chk : bool) : M RayPkg :=
  fun w =>
    let (o, s') := trace_base rel_p1 chk (tracer w) in
    let w' := {| tracer := s'; calls := calls w ++ [EvTrace rel_p1 chk] |} in
    match o with
    | Traced pkg => (Val pkg, w')
    | Failed k surf partial => (Exc (TraceError k surf partial), w')
    end.

(** [seq[i]] on a Python list with a non-negative index. *)
Definition index {A : Type} (l : list A) (i : nat) : M A :=
  match nth_error l i with
  | Some a => ret a
  | None => raise IndexError
  end.

(** *** iterate_pupil_ray *)

(** [r_ray = sqrt(ray[indx][mc.p][0]**2 + ray[indx][mc.p][1]**2);
     return r_ray - r_target] *)
Definition height_error (r : Ray) (indx : nat) (r_target : float) : M float :=
  seg <- index r indx ;;
  ret (radial_height seg - r_target)%float.

(** The objective function handed to the root finder. *)
Definition r_pupil_coordinate (indx : nat) (xy : axis) (r_target : float)
           (xy_coord : float) : M float :=
  let rel_p1 := setc (0, 0)%float xy xy_coord in
  fun w =>
    match trace_call rel_p1 false w with
    | (Val ray_pkg, w') => height_error (ray ray_pkg) indx r_target w'
    | (Exc (TraceError Missed surf partial), w') =>
        if surf <=? indx
        then (Exc (TraceError Missed surf partial), w')
        else height_error partial indx r_target w'
    | (Exc (TraceError TIR surf partial), w') =>
        if surf <? indx
        then (Exc (TraceError TIR surf partial), w')
        else height_error partial indx r_target w'
    | (Exc e, w') => (Exc e, w')
    end.

(** Running the root finder on an objective. *)
Fixpoint run_solver (s : solver) (func : float -> M float)
  : M (float * RootResults) :=
  match s with
  | Return x results => ret (x, results)
  | Call x k => q <- func x ;; run_solver (k q) func
  end.

(** [tol=1e-6] *)
Definition tol : float := 0x1.0c6f7a0b5ed8dp-20%float.

Definition call_newton (func : float -> M float) (x0 : float)
  : M (float * RootResults) :=
  _ <- emit (EvNewton x0) ;; run_solver (newton x0 tol) func.

Definition iterate_pupil_ray (indx : option nat) (xy : axis)
           (start_r0 r_target : float) : M pupil :=
  let start_coords := (0, 0)%float in
  match indx with
  | Some i =>
      fun w =>
        match call_newton (r_pupil_coordinate i xy r_target) start_r0 w with
        | (Val (start_r, results), w') => (Val (setc start_coords xy start_r), w')
        | (Exc RuntimeError, w') =>
            (* start_r = results.root, with results not yet bound *)
            (Exc UnboundLocalError, w')
        | (Exc (TraceError _ _ _), w') => (Val (setc start_coords xy 0%float), w')
        | (Exc e, w') => (Exc e, w')
        end
  | None => ret (setc start_coords xy r_target)
  end.

(** *** calc_vignetted_ray *)

(** The local variables of the search loop.  [ray_pkg] is not bound before
    the first trace. *)
Record search_state : Set := mkSearch
  { rel_p1 : pupil; still_iterating : bool; last_indx : option nat;
    iter_count : nat; ray_pkg : option ray_result }.

(** [indx == last_indx], where [last_indx] may be [None]. *)
Definition same_indx (indx : nat) (last : option nat) : bool :=
  match last with
  | Some j => indx =? j
  | None => false
  end.

(** One pass through the body of the [while] loop. *)
Definition search_step (xy : axis) (st : search_state) : M search_state :=
  let n := S (iter_count st) in
  fun w =>
    match trace_call (rel_p1 st) true w with
    | (Exc (TraceError _ indx partial), w') =>
        let pkg := Some (PartialRay partial) in
        if same_indx indx (last_indx st)
        then (Val (mkSearch (rel_p1 st) false (last_indx st) n pkg), w')
        else
          (ifc <- index ifcs indx ;;
           rel <- iterate_pupil_ray (Some indx) xy (getc (rel_p1 st) xy)
                                    (surface_od ifc) ;;
           ret (mkSearch rel true (Some indx) n pkg)) w'
    | (Exc e, w') => (Exc e, w')
    | (Val traced, w') =>
        let pkg := Some (FullPkg traced) in
        match last_indx st with
        | Some _ => (Val (mkSearch (rel_p1 st) false (last_indx st) n pkg), w')
        | None =>
            match stop_surface with
            | Some stop_indx =>
                (ifc <- index ifcs stop_indx ;;
                 rel <- iterate_pupil_ray (Some stop_indx) xy
                                          (getc (rel_p1 st) xy)
                                          (surface_od ifc) ;;
                 ret (mkSearch rel true (Some stop_indx) n pkg)) w'
            | None => (Val (mkSearch (rel_p1 st) false None n pkg), w')
            end
        end
    end.

(** [while still_iterating and iter_count < max_iter_count: ...].  The
    result is [None] when [fuel] passes are not enough to leave the loop. *)
Fixpoint while_search (xy : axis) (max_iter_count fuel : nat)
         (st : search_state) : M (option search_state) :=
  if still_iterating st && (iter_count st <? max_iter_count) then
    match fuel with
    | O => ret None
    | S fuel' =>
        st' <- search_step xy st ;; while_search xy max_iter_count fuel' st'
    end
  else ret (Some st).

(** [max_iter_count=10] *)
Definition default_max_iter_count : nat := 10.

(** [rel_p1 = np.array(start_dir); still_iterating = True; last_indx = None;
    iter_count = 0] *)
Definition init_search (start_dir : pupil) : search_state :=
  mkSearch start_dir true None 0 None.

(** The loop of [calc_vignetted_ray], from its initial state. *)
Definition vignetted_search (xy : axis) (start_dir : pupil)
           (max_iter_count : nat) : M (option search_state) :=
  while_search xy max_iter_count max_iter_count (init_search start_dir).

(** [vig = 1.0 - (rel_p1[xy]/start_dir[xy])] *)
Definition vig_factor (xy : axis) (start_dir : pupil) (c : pupil) : float :=
  (1 - getc c xy / getc start_dir xy)%float.

(** [vig = ...; return vig, last_indx, ray_pkg] *)
Definition finish (xy : axis) (start_dir : pupil) (st : search_state)
  : M (float * option nat * ray_result) :=
  let vig := vig_factor xy start_dir (rel_p1 st) in
  match ray_pkg st with
  | Some pkg => ret (vig, last_indx st, pkg)
  | None => raise UnboundLocalError
  end.

Definition calc_vignetted_ray (xy : axis) (start_dir : pupil)
           (max_iter_count : nat)
  : M (option (float * option nat * ray_result)) :=
  r <- vignetted_search xy start_dir max_iter_count ;;
  match r with
  | Some st => out <- finish xy start_dir st ;; ret (Some out)
  | None => ret None
  end.

End Search.

Arguments world St : clear implicits.
Arguments M St A : clear implicits.

(** *** set_ape *)

(** The running maximum and the [update] flag after one more ray. *)
Definition scan_ray (i : nat) (acc : float * bool) (r : Ray) : float * bool :=
  let (max_ap, update) := acc in
  match nth_error r i with
  | Some seg =>                          (* len(ray) > i *)
      let ap := radial_height seg in
      if (max_ap <? ap)%float then (ap, update) else (max_ap, update)
  | None => (max_ap, false)              (* ray failed before this interface *)
  end.

(** [for p in f: ...] *)
Definition scan_field (i : nat) (acc : float * bool) (f : list Ray)
  : float * bool :=
  fold_left (scan_ray i) f acc.

(** [max_ap = -1.0e+10; update = True; for f in rayset: ...] *)
Definition scan_rayset (rayset : list (list Ray)) (i : nat) : float * bool :=
  fold_left (scan_field i) rayset ((-1.0e+10)%float, true).

(** [for i, ifc in enumerate(opm['sm'].ifcs): ...], from index [i] on. *)
Fixpoint set_ape_from (rayset : list (list Ray)) (i : nat)
         (ifcs : list Interface) : list Interface :=
  match ifcs with
  | [] => []
  | ifc :: rest =>
      let (max_ap, update) := scan_rayset rayset i in
      (if update then set_max_aperture ifc max_ap else ifc)
        :: set_ape_from rayset (S i) rest
  end.

(** [rayset] is what [trace.trace_boundary_rays] returned: for each field,
    the rays of its boundary pupil directions.  The result is the list of
    interfaces after the loop; the closing [sync_to_seq] of the element
    model is outside the embedding. *)
Definition set_ape (rayset : list (list Ray)) (ifcs : list Interface)
  : list Interface :=
  set_ape_from rayset 0 ifcs.

(** *** calc_vignetting_for_field and set_vig *)

(** Modelled from the spec: a field point, an object-space position with its
    four vignetting factors. *)
Record Field : Set :=
  mkField { fld_x : float; fld_y : float;
            vux : float; vlx : float; vuy : float; vly : float }.

(** [xy = i//2], for [i] in [range(4)]. *)
Definition axis_of (i : nat) : axis :=
  match i / 2 with
  | O => X
  | _ => Y
  end.

(** The list [l] with [v] at index [i]. *)
Definition replace_at {A : Type} (l : list A) (i : nat) (v : A) : list A :=
  firstn i l ++ v :: skipn (S i) l.

Section Vignetting.

Context {St : Type}.

(** The tracer, for the field it is given. *)
Variable trace_field : Field -> pupil -> bool -> St -> TraceOutcome * St.
Variable newton : float -> float -> solver.
Variable ifcs : list Interface.
Variable stop_surface : option nat.

(** [opm['osp']['pupil'].pupil_rays] *)
Variable pupil_rays : list pupil.

Notation "x <- m ;; f" := (bind m (fun x => f))
  (at level 61, m at next level, right associativity).

(** [seq[i] = v] on a Python list with a non-negative index. *)
Definition set_item {A : Type} (l : list A) (i : nat) (v : A) : M St (list A) :=
  if i <? length l then ret (replace_at l i v) else raise IndexError.

(** [for i in range(4): ...], with [n] passes left; [None] stands for a
    search that ran out of fuel. *)
Fixpoint vig_loop (fld : Field) (pupil_starts : list pupil) (n i : nat)
         (vig_factors : list float) : M St (option (list float)) :=
  match n with
  | O => ret (Some vig_factors)
  | S n' =>
      start <- index pupil_starts i ;;
      r <- calc_vignetted_ray (trace_field fld) newton ifcs stop_surface
                              (axis_of i) start default_max_iter_count ;;
      match r with
      | Some (vig, _, _) =>
          vig_factors' <- set_item vig_factors i vig ;;
          vig_loop fld pupil_starts n' (S i) vig_factors'
      | None => ret None
      end
  end.

(** The field as [calc_vignetting_for_field] leaves it. *)
Definition calc_vignetting_for_field (fld : Field) : M St (option Field) :=
  let pupil_starts := tl pupil_rays in
  r <- vig_loop fld pupil_starts 4 0 [0; 0; 0; 0]%float ;;
  match r with
  | Some vig_factors =>
      v0 <- index vig_factors 0 ;;
      v1 <- index vig_factors 1 ;;
      v2 <- index vig_factors 2 ;;
      v3 <- index vig_factors 3 ;;
      ret (Some (mkField (fld_x fld) (fld_y fld) v0 v1 v2 v3))
  | None => ret None
  end.

(** [for fi in range(len(osp['fov'].fields)): ...], with [n] fields left.
    The fields are objects updated in place: the list of fields is part of
    the result also when an exception ends the loop. *)
Fixpoint set_vig_from (n fi : nat) (fields : list Field) (w : world St)
  : res (option unit) * list Field * world St :=
  match n with
  | O => (Val (Some tt), fields, w)
  | S n' =>
      match nth_error fields fi with
      | Some fld =>
          match calc_vignetting_for_field fld w with
          | (Val (Some fld'), w') =>
              set_vig_from n' (S fi) (replace_at fields fi fld') w'
          | (Val None, w') => (Val None, fields, w')
          | (Exc e, w') => (Exc e, fields, w')
          end
      | None => (Exc IndexError, fields, w)
      end
  end.

Definition set_vig (fields : list Field) (w : world St)
  : res (option unit) * list Field * world St :=
  set_vig_from (length fields) 0 fields w.

End Vignetting.

(** ** Vocabulary of the statements *)

(** An event of a pupil-ray iteration: a call of the root finder, or an
    unchecked trace from a coordinate whose inactive component is 0. *)
Definition on_axis (xy : axis) (ev : event) : Prop :=
  match ev with
  | EvTrace c chk => chk = false /\ getc c (other xy) = 0%float
  | EvNewton _ => True
  end.

(** Number of traces with aperture checking in a list of calls: the loop of
    [calc_vignetted_ray] makes one per pass. *)
Definition checked_traces (evs : list event) : nat :=
  length (filter is_checked_trace evs).

(** A call of the root finder. *)
Definition is_newton (ev : event) : bool :=
  match ev with EvNewton _ => true | EvTrace _ _ => false end.

(** Number of root-finder calls in a list of calls. *)
Definition newton_calls (evs : list event) : nat :=
  length (filter is_newton evs).

(** An unchecked trace from a coordinate whose inactive component is 0. *)
Definition objective_trace (xy : axis) (ev : event) : Prop :=
  match ev with
  | EvTrace c chk => chk = false /\ getc c (other xy) = 0%float
  | EvNewton _ => False
  end.

(** What a checked trace leaves in [ray_pkg]. *)
Definition result_of (o : TraceOutcome) : ray_result :=
  match o with
  | Traced pkg => FullPkg pkg
  | Failed _ _ partial => PartialRay partial
  end.

(** The position of a field point. *)
Definition field_pos (fld : Field) : float * float := (fld_x fld, fld_y fld).

(** A finite number that is not a zero. *)
Definition finite_nonzero (x : float) : bool :=
  match Prim2SF x with
  | S754_finite _ _ _ => true
  | _ => false
  end.

(** A value of [spec_float] that is a NaN or has a clear sign bit. *)
Definition SFnonneg (f : spec_float) : Prop :=
  match f with
  | S754_nan => True
  | S754_zero s | S754_infinity s | S754_finite s _ _ => s = false
  end.

(** The initial value of the running maximum. *)
Definition floor_ap : float := (-1.0e+10)%float.

(** The running maximum of [set_ape] over a list of heights. *)
Definition run_max (m0 : float) (hs : list float) : float :=
  fold_left (fun m h => if (m <? h)%float then h else m) hs m0.

(** The heights at surface [i] of the rays of one field that reach it. *)
Definition field_heights (i : nat) (f : list Ray) : list float :=
  flat_map (fun r => match nth_error r i with
                     | Some seg => [radial_height seg]
                     | None => []
                     end) f.

(** The heights at surface [i] of all the rays that reach it, in the order
    [set_ape] visits them. *)
Definition heights_at (rayset : list (list Ray)) (i : nat) : list float :=
  flat_map (field_heights i) rayset.

(** Every ray of every field has a segment at surface [i]. *)
Definition all_reach (rayset : list (list Ray)) (i : nat) : bool :=
  forallb (forallb (fun r : Ray => i <? length r)) rayset.

(** ** Worked scenarios

    Concrete collaborators on which the definitions above can be run: a
    secant root finder and synthetic tracers. *)

Module Secant.

(** [np.isclose(a, b, rtol=0, atol=atol)] on finite numbers. *)
Definition isclose (a b atol : float) : bool :=
  (abs (a - b) <=? atol)%float.

(** The secant iteration: [n] passes are left of the [maxiter] allowed. *)
Fixpoint secant_loop (atol : float) (n itr funcalls : nat)
         (p0 q0 p1 q1 : float) : solver :=
  match n with
  | O => Return p1 (mkResults p1 itr funcalls false)
  | S n' =>
      if (q1 =? q0)%float then
        let x := ((p1 + p0) / 2)%float in
        Return x (mkResults x (S itr) funcalls true)
      else
        let x := if (abs q0 <? abs q1)%float
                 then ((- q0 / q1 * p1 + p0) / (1 - q0 / q1))%float
                 else ((- q1 / q0 * p0 + p1) / (1 - q1 / q0))%float in
        if isclose x p1 atol then
          Return x (mkResults x (S itr) funcalls true)
        else
          Call x (fun q => secant_loop atol n' (S itr) (S funcalls) p1 q1 x q)
  end.

Definition eps : float := 0x1.a36e2eb1c432dp-14%float.   (* 1e-4 *)

(** A secant root finder with an iteration budget; on exhaustion it
    returns its current estimate with [converged = false]. *)
Definition secant (maxiter : nat) (x0 atol : float) : solver :=
  let p1 := (x0 * (1 + eps))%float in
  let p1 := (p1 + (if (0 <=? p1)%float then eps else - eps))%float in
  Call x0 (fun q0 =>
  Call p1 (fun q1 =>
    if (abs q1 <? abs q0)%float
    then secant_loop atol maxiter 0 2 p1 q1 x0 q0
    else secant_loop atol maxiter 0 2 x0 q0 p1 q1)).

End Secant.

Module Scenario.

Definition origin : vec3 := (0, 0, 0)%float.

Definition seg_at (x y : float) : RaySeg :=
  mkSeg (x, y, 0%float) origin 0%float origin.

(** A three-surface system in which the ray height at surfaces 1 and 2 is
    10 times the pupil coordinate. *)
Definition linear_ray (c : pupil) : Ray :=
  let x := (10 * fst c)%float in
  let y := (10 * snd c)%float in
  [seg_at 0 0; seg_at x y; seg_at x y].

Definition pkg_of (r : Ray) : RayPkg := mkPkg r 0%float 550%float.

Definition three_ifcs : list Interface :=
  [mkIfc 1 1; mkIfc 5 5; mkIfc 8 8]%float.

(** A tracer that is blocked at surface 1 exactly when apertures are
    checked and the ray height there exceeds 5.0. *)
Definition stop_edge_tracer (c : pupil) (chk : bool) (s : unit)
  : TraceOutcome * unit :=
  let r := linear_ray c in
  match nth_error r 1 with
  | Some seg =>
      if chk && (5 <? radial_height seg)%float
      then (Failed Blocked 1 (firstn 2 r), s)
      else (Traced (pkg_of r), s)
  | None => (Traced (pkg_of r), s)
  end.

(** A tracer whose checked traces always fail, at surface 1 and surface 2
    in turn; its state counts the checked traces. *)
Definition alternating_tracer (c : pupil) (chk : bool) (s : nat)
  : TraceOutcome * nat :=
  let r := linear_ray c in
  if chk
  then (Failed Blocked (if Nat.even s then 1 else 2) r, S s)
  else (Traced (pkg_of r), s).

(** A tracer on which every unchecked trace suffers total internal
    reflection at surface 1, after the ray has met that surface. *)
Definition tir_tracer (c : pupil) (chk : bool) (s : unit)
  : TraceOutcome * unit :=
  (Failed TIR 1 (firstn 2 (linear_ray c)), s).

Definition w0 : world unit := mkWorld tt [].

Definition newton50 : float -> float -> solver := Secant.secant 50.

(** A root finder with no iteration budget left after its two first
    evaluations: it reports non-convergence. *)
Definition newton0 : float -> float -> solver := Secant.secant 0.

(** A tracer on which every ray misses surface 1. *)
Definition missing_tracer (c : pupil) (chk : bool) (s : unit)
  : TraceOutcome * unit :=
  (Failed Missed 1 (firstn 1 (linear_ray c)), s).

(** The scenario of the specification: stop at surface 1 with outer
    diameter 5.0, starting direction [1, 0], search along x. *)
Definition stop_edge_run :=
  Eval vm_compute in
    calc_vignetted_ray stop_edge_tracer newton50 three_ifcs (Some 1) X
                       (1, 0)%float default_max_iter_count w0.

(** A starting direction with no x component, searched along x. *)
Definition zero_start_run :=
  Eval vm_compute in
    calc_vignetted_ray stop_edge_tracer newton50 three_ifcs (Some 1) X
                       (0, 1)%float default_max_iter_count w0.

(** Two fields over two surfaces: the rays of field A reach both surfaces,
    with heights 3 and 4 at surface 0; the ray of field B stops after
    surface 0, where its height is 2. *)
Definition field_A : list Ray :=
  [[seg_at 3 0; seg_at 1 0]; [seg_at 0 4; seg_at 0 2]]%float.

Definition field_B : list Ray := [[seg_at 2 0]]%float.

Definition two_ifcs : list Interface := [mkIfc 1 9; mkIfc 7 9]%float.

(** A tracer on which no ray ever fails. *)
Definition clear_tracer (c : pupil) (chk : bool) (s : unit)
  : TraceOutcome * unit :=
  (Traced (pkg_of (linear_ray c)), s).

(** A tracer that is clear for the fields on the axis ([fld_x] is 0) and on
    which the rays of every other field are blocked at a surface index, 5,
    beyond the three interfaces. *)
Definition field_tracer (fld : Field) (c : pupil) (chk : bool) (s : unit)
  : TraceOutcome * unit :=
  if (fld_x fld =? 0)%float
  then clear_tracer c chk s
  else (Failed Blocked 5 (linear_ray c), s).

(** The pupil rays of a sampled pupil: the chief ray and the four edge rays. *)
Definition edge_rays : list pupil :=
  [(0, 0); (1, 0); (-1, 0); (0, 1); (0, -1)]%float.

Definition on_axis_field : Field := mkField 0 0 0.5 0.5 0.5 0.5.
Definition off_axis_field : Field := mkField 1 0 0.5 0.5 0.5 0.5.

(** The state and the world the search of the specification's scenario
    ends with. *)
Definition stop_edge_search :=
  Eval vm_compute in
    vignetted_search stop_edge_tracer newton50 three_ifcs (Some 1) X
                     (1, 0)%float default_max_iter_count w0.

Definition stop_edge_state : search_state :=
  Eval vm_compute in
    match fst stop_edge_search with
    | Val (Some st) => st
    | _ => init_search (0, 0)%float
    end.

(** A search in which the objective cannot be evaluated (every unchecked
    trace misses surface 1): the coordinate falls back to 0.0. *)
Definition fallback_tracer (c : pupil) (chk : bool) (s : unit)
  : TraceOutcome * unit :=
  if chk then stop_edge_tracer c chk s else missing_tracer c chk s.

Definition fallback_search :=
  Eval vm_compute in
    vignetted_search fallback_tracer newton50 three_ifcs (Some 1) X
                     (1, 0)%float default_max_iter_count w0.

Definition fallback_state : search_state :=
  Eval vm_compute in
    match fst fallback_search with
    | Val (Some st) => st
    | _ => init_search (0, 0)%float
    end.

End Scenario.

(** * Properties *)

(** ** The computation monad and the objective function *)

Section PupilRayFacts.

Context {St : Type}.
Variable trace_base : pupil -> bool -> St -> TraceOutcome * St.
Variable newton : float -> float -> solver.

Lemma setc_same (c : pupil) (xy : axis) (v : float) :
  getc (setc c xy v) xy = v.
Proof. destruct xy; reflexivity. Qed.

Lemma setc_other (c : pupil) (xy : axis) (v : float) :
  getc (setc c xy v) (other xy) = getc c (other xy).
Proof. destruct xy; reflexivity. Qed.

Lemma trace_call_eq (c : pupil) (chk : bool) (w : world St) :
  trace_call trace_base c chk w =
    (match fst (trace_base c chk (tracer w)) with
     | Traced pkg => Val pkg
     | Failed k surf partial => Exc (TraceError k surf partial)
     end,
     mkWorld (snd (trace_base c chk (tracer w)))
             (calls w ++ [EvTrace c chk])).
Proof.
  unfold trace_call. destruct (trace_base c chk (tracer w)) as [[pkg|k s r] s'];
    reflexivity.
Qed.

Lemma height_error_eq (r : Ray) (i : nat) (t : float) (w : world St) :
  height_error r i t w =
    (match nth_error r i with
     | Some seg => Val (radial_height seg - t)%float
     | None => Exc IndexError
     end, w).
Proof.
  unfold height_error, bind, index. destruct (nth_error r i); reflexivity.
Qed.

(** The objective makes exactly one call, an unchecked trace from the
    candidate coordinate. *)
Lemma r_pupil_coordinate_world (i : nat) (xy : axis) (t x : float)
      (w : world St) :
  snd (r_pupil_coordinate trace_base i xy t x w) =
    mkWorld (snd (trace_base (setc (0, 0)%float xy x) false (tracer w)))
            (calls w ++ [EvTrace (setc (0, 0)%float xy x) false]).
Proof.
  unfold r_pupil_coordinate. rewrite trace_call_eq.
  destruct (fst (trace_base _ false (tracer w))) as [pkg|[] s r]; cbn [fst snd];
    try reflexivity.
  - now rewrite height_error_eq.
  - destruct (s <=? i); [reflexivity | now rewrite height_error_eq].
  - destruct (s <? i); [reflexivity | now rewrite height_error_eq].
Qed.

(** What the objective can raise. *)
Lemma r_pupil_coordinate_raises (i : nat) (xy : axis) (t x : float)
      (w : world St) (e : exn) :
  fst (r_pupil_coordinate trace_base i xy t x w) = Exc e ->
  e = IndexError \/
  exists k s r,
    e = TraceError k s r /\
    fst (trace_base (setc (0, 0)%float xy x) false (tracer w)) = Failed k s r /\
    (k = Missed -> s <= i) /\ (k = TIR -> s < i).
Proof.
  unfold r_pupil_coordinate. rewrite trace_call_eq.
  destruct (fst (trace_base _ false (tracer w))) as [pkg|[] s r] eqn:E; cbn [fst snd].
  - rewrite height_error_eq. destruct (nth_error _ i); cbn [fst snd]; [discriminate|].
    intros [= <-]. now left.
  - intros [= <-]. right. exists Blocked, s, r. repeat split; discriminate.
  - destruct (Nat.leb_spec s i) as [Hle|Hgt]; cbn [fst snd].
    + intros [= <-]. right. exists Missed, s, r.
      repeat split; [now intros _ | discriminate].
    + rewrite height_error_eq. destruct (nth_error _ i); cbn [fst snd]; [discriminate|].
      intros [= <-]. now left.
  - destruct (Nat.ltb_spec s i) as [Hlt|Hge]; cbn [fst snd].
    + intros [= <-]. right. exists TIR, s, r.
      repeat split; [discriminate | now intros _].
    + rewrite height_error_eq. destruct (nth_error _ i); cbn [fst snd]; [discriminate|].
      intros [= <-]. now left.
Qed.

(** The calls made while the root finder runs on the objective. *)
Lemma run_solver_calls (i : nat) (xy : axis) (t : float) (s : solver) :
  forall w : world St,
  exists evs,
    calls (snd (run_solver s (r_pupil_coordinate trace_base i xy t) w))
      = calls w ++ evs
    /\ Forall (on_axis xy) evs.
Proof.
  induction s as [x results | x k IH]; intros w; cbn.
  - exists []. now rewrite app_nil_r.
  - unfold bind.
    pose proof (r_pupil_coordinate_world i xy t x w) as Hw.
    destruct (r_pupil_coordinate trace_base i xy t x w) as [[q|e] w1];
      cbn in Hw; subst w1.
    + destruct (IH q (mkWorld (snd (trace_base (setc (0, 0)%float xy x) false (tracer w)))
                              (calls w ++ [EvTrace (setc (0, 0)%float xy x) false])))
        as (evs & Hc & Hf).
      exists (EvTrace (setc (0, 0)%float xy x) false :: evs). split.
      * rewrite Hc. cbn. now rewrite <- app_assoc.
      * constructor; [|exact Hf]. split; [reflexivity|].
        now rewrite setc_other; destruct xy.
    + exists [EvTrace (setc (0, 0)%float xy x) false]. split; [reflexivity|].
      constructor; [|constructor]. split; [reflexivity|].
      now rewrite setc_other; destruct xy.
Qed.

(** The root finder raises only what an evaluation of the objective
    raised. *)
Lemma run_solver_raises (func : float -> M St float) (s : solver) :
  forall (w w' : world St) (e : exn),
    run_solver s func w = (Exc e, w') ->
    exists x w1, func x w1 = (Exc e, w').
Proof.
  induction s as [x results | x k IH]; intros w w' e; cbn.
  - discriminate.
  - unfold bind. destruct (func x w) as [[q|e1] w1] eqn:E.
    + apply IH.
    + intros [= <- <-]. now exists x, w.
Qed.

Lemma call_newton_eq (func : float -> M St float) (x0 : float) (w : world St) :
  call_newton newton func x0 w =
    run_solver (newton x0 tol) func (mkWorld (tracer w) (calls w ++ [EvNewton x0])).
Proof. reflexivity. Qed.

(** C1 (amended).  When the trace inside the objective function fails:
    a missed surface at an index <= the target is re-raised, and so is a
    total internal reflection at an index < the target; a missed surface
    beyond the target, and a total internal reflection at or beyond it, are
    absorbed and the objective is computed from the partial ray at the
    target surface (its radial height there minus the target radius). *)
Theorem C1_objective_failure_policy
        (i : nat) (xy : axis) (t x : float) (w : world St)
        (k : failure_kind) (s : nat) (r : Ray) :
  fst (trace_base (setc (0, 0)%float xy x) false (tracer w)) = Failed k s r ->
  let w' := mkWorld (snd (trace_base (setc (0, 0)%float xy x) false (tracer w)))
                    (calls w ++ [EvTrace (setc (0, 0)%float xy x) false]) in
  let out := r_pupil_coordinate trace_base i xy t x w in
  (k = Missed -> s <= i -> out = (Exc (TraceError Missed s r), w'))
  /\ (k = TIR -> s < i -> out = (Exc (TraceError TIR s r), w'))
  /\ (k = Missed -> i < s -> out = height_error r i t w')
  /\ (k = TIR -> i <= s -> out = height_error r i t w')
  /\ (forall seg, nth_error r i = Some seg ->
                  height_error r i t w' = (Val (radial_height seg - t)%float, w')).
Proof.
  intros Hfail w' out. subst out w'.
  unfold r_pupil_coordinate. rewrite trace_call_eq, Hfail.
  repeat split.
  - intros -> Hle. apply Nat.leb_le in Hle. now rewrite Hle.
  - intros -> Hlt. apply Nat.ltb_lt in Hlt. now rewrite Hlt.
  - intros -> Hgt. apply Nat.leb_gt in Hgt. now rewrite Hgt.
  - intros -> Hge. apply Nat.ltb_ge in Hge. now rewrite Hge.
  - intros seg Hseg. now rewrite height_error_eq, Hseg.
Qed.

(** C8.  With an undefined target surface index, [iterate_pupil_ray] calls
    neither the root finder nor the tracer (the world, and with it the list
    of calls, is unchanged) and returns the target radius on the active axis
    and 0 on the other axis. *)
Theorem C8_floating_target_skips_search
        (xy : axis) (start_r0 r_target : float) (w : world St) :
  iterate_pupil_ray trace_base newton None xy start_r0 r_target w
    = (Val (setc (0, 0)%float xy r_target), w)
  /\ calls (snd (iterate_pupil_ray trace_base newton None xy start_r0 r_target w))
     = calls w
  /\ getc (setc (0, 0)%float xy r_target) xy = r_target
  /\ getc (setc (0, 0)%float xy r_target) (other xy) = 0%float.
Proof.
  repeat split.
  - apply setc_same.
  - rewrite setc_other. now destruct xy.
Qed.

Lemma iterate_pupil_ray_world (indx : option nat) (xy : axis)
      (start_r0 r_target : float) (w : world St) :
  snd (iterate_pupil_ray trace_base newton indx xy start_r0 r_target w) =
    match indx with
    | Some i => snd (call_newton newton (r_pupil_coordinate trace_base i xy r_target)
                                 start_r0 w)
    | None => w
    end.
Proof.
  destruct indx as [i|]; [|reflexivity]. unfold iterate_pupil_ray.
  destruct (call_newton _ _ _ w) as [[[x results]|[]] w']; reflexivity.
Qed.

Lemma iterate_pupil_ray_calls (indx : option nat) (xy : axis)
      (start_r0 r_target : float) (w : world St) :
  exists evs,
    calls (snd (iterate_pupil_ray trace_base newton indx xy start_r0 r_target w))
      = calls w ++ evs
    /\ Forall (on_axis xy) evs.
Proof.
  rewrite iterate_pupil_ray_world. destruct indx as [i|].
  - rewrite call_newton_eq.
    destruct (run_solver_calls i xy r_target (newton start_r0 tol)
                (mkWorld (tracer w) (calls w ++ [EvNewton start_r0])))
      as (evs & Hc & Hf).
    exists (EvNewton start_r0 :: evs). split.
    + rewrite Hc. cbn. now rewrite <- app_assoc.
    + constructor; [exact I | exact Hf].
  - exists []. split; [now rewrite app_nil_r | constructor].
Qed.

Lemma iterate_pupil_ray_value (indx : option nat) (xy : axis)
      (start_r0 r_target : float) (w : world St) (c : pupil) :
  fst (iterate_pupil_ray trace_base newton indx xy start_r0 r_target w) = Val c ->
  getc c (other xy) = 0%float.
Proof.
  destruct indx as [i|]; unfold iterate_pupil_ray.
  - destruct (call_newton _ _ _ w) as [[[x results]|[]] w'];
      cbn [fst]; intros [= <-] || discriminate;
      rewrite setc_other; now destruct xy.
  - cbn. intros [= <-]. rewrite setc_other. now destruct xy.
Qed.

(** C9.  The inactive pupil axis is held at 0: the one trace an evaluation
    of the objective makes starts from a coordinate whose inactive component
    is 0; every call made during [iterate_pupil_ray] is a call of the root
    finder or such a trace; and a returned coordinate has inactive component
    0, with or without a target surface. *)
Theorem C9_inactive_axis_is_zero
        (indx : option nat) (xy : axis) (start_r0 r_target : float)
        (w : world St) :
  (forall i x,
      calls (snd (r_pupil_coordinate trace_base i xy r_target x w))
        = calls w ++ [EvTrace (setc (0, 0)%float xy x) false]
      /\ getc (setc (0, 0)%float xy x) (other xy) = 0%float
      /\ getc (setc (0, 0)%float xy x) xy = x)
  /\ (exists evs,
         calls (snd (iterate_pupil_ray trace_base newton indx xy start_r0 r_target w))
           = calls w ++ evs
         /\ Forall (on_axis xy) evs)
  /\ match fst (iterate_pupil_ray trace_base newton indx xy start_r0 r_target w) with
     | Val c => getc c (other xy) = 0%float
     | Exc _ => True
     end.
Proof.
  split; [|split].
  - intros i x. rewrite r_pupil_coordinate_world. cbn [calls].
    repeat split; [| apply setc_same]. rewrite setc_other. now destruct xy.
  - apply iterate_pupil_ray_calls.
  - destruct (fst (iterate_pupil_ray _ _ indx xy start_r0 r_target w)) eqn:E;
      [|exact I].
    eapply iterate_pupil_ray_value; eassumption.
Qed.

(** C6.  [iterate_pupil_ray] with a target surface: whatever the root finder
    returns is used as the active-axis coordinate, also when it reports that
    it did not converge; when the root finder's run ends in a trace error
    (which then was raised by an evaluation of the objective, for a missed
    surface at or before the target or a total internal reflection before
    it) the active-axis coordinate is 0.0; no trace error reaches the
    caller, and the one exception that can is the [IndexError] of a target
    index beyond the traced ray. *)
Theorem C6_no_failure_on_nonconvergence_or_trace_error
        (i : nat) (xy : axis) (start_r0 r_target : float) (w : world St) :
  let objective := r_pupil_coordinate trace_base i xy r_target in
  let run := call_newton newton objective start_r0 w in
  let out := iterate_pupil_ray trace_base newton (Some i) xy start_r0 r_target w in
  (forall x results,
      fst run = Val (x, results) ->
      out = (Val (setc (0, 0)%float xy x), snd run)
      /\ getc (setc (0, 0)%float xy x) xy = x)
  /\ (forall k s r,
         fst run = Exc (TraceError k s r) ->
         out = (Val (setc (0, 0)%float xy 0%float), snd run)
         /\ getc (setc (0, 0)%float xy 0%float) xy = 0%float
         /\ (exists x w1, objective x w1 = (Exc (TraceError k s r), snd run))
         /\ (k = Missed -> s <= i) /\ (k = TIR -> s < i))
  /\ (forall k s r, fst out <> Exc (TraceError k s r))
  /\ (forall e, fst out = Exc e -> e = IndexError).
Proof.
  intros objective run out. subst out. unfold iterate_pupil_ray. fold objective run.
  split; [|split; [|split]].
  - intros x results Hrun. destruct run as [[[x' res']|e] w']; cbn [fst snd] in *;
      [|discriminate]. injection Hrun as -> ->. split; [reflexivity | apply setc_same].
  - intros k s r Hrun. destruct run as [[[x' res']|e] w'] eqn:E; cbn [fst snd] in *;
      [discriminate|]. injection Hrun as ->.
    split; [reflexivity|]. split; [apply setc_same|].
    subst run. rewrite call_newton_eq in E.
    destruct (run_solver_raises _ _ _ _ _ E) as (x & w1 & Hx).
    split; [now exists x, w1|].
    destruct (r_pupil_coordinate_raises i xy r_target x w1
                (TraceError k s r)) as [Habs | (k' & s' & r' & He & _ & Hm & Ht)].
    + fold objective. now rewrite Hx.
    + discriminate.
    + injection He as <- <- <-. now split.
  - intros k s r. destruct run as [[[x' res']|[]] w']; cbn; discriminate.
  - intros e. destruct run as [[[x' res']|e'] w'] eqn:E; [discriminate|].
    subst run. rewrite call_newton_eq in E.
    destruct (run_solver_raises _ _ _ _ _ E) as (x & w1 & Hx).
    destruct (r_pupil_coordinate_raises i xy r_target x w1 e')
      as [-> | (k & s & r & -> & _)].
    + fold objective. now rewrite Hx.
    + cbn. now intros [= <-].
    + discriminate.
Qed.

End PupilRayFacts.

(** ** Binary64 arithmetic *)

Lemma div_eucl_shift (m : positive) :
  Z.div_eucl (Z.shiftl (Z.pos m) 53) (Z.pos m) = (9007199254740992, 0)%Z.
Proof.
  rewrite Z.shiftl_mul_pow2 by lia.
  pose proof (Z.div_eucl_eq (Z.pos m * 2 ^ 53) (Z.pos m)) as H.
  pose proof (Z.mod_pos_bound (Z.pos m * 2 ^ 53) (Z.pos m)) as Hb.
  unfold Z.modulo in Hb.
  destruct (Z.div_eucl (Z.pos m * 2 ^ 53) (Z.pos m)) as [q r].
  assert (Hq : q = (2 ^ 53)%Z) by nia.
  assert (Hr : r = 0%Z) by nia.
  subst. reflexivity.
Qed.

Lemma SFdiv_self (s : bool) (m : positive) (e : Z) :
  SF64div (S754_finite s m e) (S754_finite s m e) = Prim2SF 1%float.
Proof.
  unfold SF64div, SFdiv, SFdiv_core_binary.
  replace (Zdigits2 (Z.pos m) + e - (Zdigits2 (Z.pos m) + e))%Z with 0%Z by lia.
  replace (e - e)%Z with 0%Z by lia.
  change (Z.min (fexp prec emax 0) 0) with (-53)%Z.
  change (0 - -53)%Z with 53%Z. cbv iota beta.
  rewrite div_eucl_shift.
  replace (new_location (Z.pos m) 0) with loc_Exact
    by (unfold new_location; destruct (Z.even (Z.pos m)); reflexivity).
  destruct s; vm_compute; reflexivity.
Qed.

(** [x / x] is exactly 1 for a finite nonzero [x]. *)
Lemma div_self (x : float) : finite_nonzero x = true -> (x / x)%float = 1%float.
Proof.
  unfold finite_nonzero. intros H. apply Prim2SF_inj. rewrite div_spec.
  destruct (Prim2SF x) as [| | |s m e]; try discriminate. apply SFdiv_self.
Qed.

Lemma eqb_zero_cases (z : float) :
  (z =? 0)%float = true -> z = 0%float \/ z = (-0)%float.
Proof.
  rewrite eqb_spec. change (Prim2SF 0) with (S754_zero false). intros H.
  destruct (Prim2SF z) as [[]|[]| |[] m e] eqn:E; try discriminate H.
  - right. apply Prim2SF_inj. now rewrite E.
  - left. apply Prim2SF_inj. now rewrite E.
Qed.

(** Dividing by a zero and subtracting the quotient from 1 gives a NaN or
    an infinity, whatever the dividend. *)
Lemma one_minus_div_zero (c z : float) :
  (z =? 0)%float = true ->
  (1 - c / z)%float = nan \/ (1 - c / z)%float = infinity
  \/ (1 - c / z)%float = neg_infinity.
Proof.
  intros Hz.
  assert (Hv : Prim2SF (1 - c / z) = S754_nan
               \/ Prim2SF (1 - c / z) = S754_infinity false
               \/ Prim2SF (1 - c / z) = S754_infinity true).
  { rewrite sub_spec, div_spec.
    destruct (eqb_zero_cases z Hz) as [-> | ->];
      destruct (Prim2SF c) as [[]|[]| |[] m e]; cbn; auto. }
  destruct Hv as [H|[H|H]]; [left|right;left|right;right];
    apply Prim2SF_inj; rewrite H; reflexivity.
Qed.

(** Transfer of the order on [spec_float] to binary64 numbers. *)

Ltac cmp_cases :=
  repeat match goal with
         | |- context [Z.compare ?a ?b] => destruct (Z.compare_spec a b)
         | |- context [Pos.compare_cont Eq ?a ?b] =>
             change (Pos.compare_cont Eq a b) with (Pos.compare a b);
             destruct (Pos.compare_spec a b)
         | H : context [Z.compare ?a ?b] |- _ => destruct (Z.compare_spec a b)
         | H : context [Pos.compare_cont Eq ?a ?b] |- _ =>
             change (Pos.compare_cont Eq a b) with (Pos.compare a b) in H;
             destruct (Pos.compare_spec a b)
         end.

Lemma SFltb_trans (a b c : spec_float) :
  SFltb a b = true -> SFltb b c = true -> SFltb a c = true.
Proof.
  unfold SFltb, SFcompare.
  destruct a as [[]|[]| |[] ma ea], b as [[]|[]| |[] mb eb],
           c as [[]|[]| |[] mc ec]; intros H1 H2;
    try discriminate H1; try discriminate H2; try reflexivity;
    cmp_cases; cbn in *; try discriminate; try reflexivity; lia.
Qed.

Lemma SFltb_cotrans (a b c : spec_float) :
  SFltb a c = true -> b <> S754_nan -> SFltb a b = true \/ SFltb b c = true.
Proof.
  unfold SFltb, SFcompare.
  destruct a as [[]|[]| |[] ma ea], b as [[]|[]| |[] mb eb],
           c as [[]|[]| |[] mc ec]; intros H1 H2;
    try discriminate H1; try congruence; auto;
    cmp_cases; cbn in *; try discriminate; auto; lia.
Qed.

Lemma SFleb_of_not_ltb (a b : spec_float) :
  a <> S754_nan -> b <> S754_nan -> SFltb a b = false -> SFleb b a = true.
Proof.
  unfold SFltb, SFleb, SFcompare.
  destruct a as [[]|[]| |[] ma ea], b as [[]|[]| |[] mb eb]; intros Ha Hb H;
    try congruence; try reflexivity; try discriminate H;
    cmp_cases; cbn in *; try discriminate; try reflexivity; lia.
Qed.

Lemma SFltb_not_nan (a b : spec_float) :
  SFltb a b = true -> a <> S754_nan /\ b <> S754_nan.
Proof.
  unfold SFltb, SFcompare.
  destruct a as [[]|[]| |[] ma ea], b as [[]|[]| |[] mb eb]; intros H;
    try discriminate H; split; discriminate.
Qed.

Lemma is_nan_spec (x : float) : is_nan x = false <-> Prim2SF x <> S754_nan.
Proof.
  unfold is_nan. rewrite eqb_spec. unfold SFeqb, SFcompare.
  destruct (Prim2SF x) as [[]|[]| |[] m e]; cbn;
    rewrite ?Z.compare_refl, ?Pos.compare_cont_refl; cbn;
    split; congruence.
Qed.

Lemma ltb_trans (a b c : float) :
  (a <? b)%float = true -> (b <? c)%float = true -> (a <? c)%float = true.
Proof. rewrite !ltb_spec. apply SFltb_trans. Qed.

Lemma ltb_cotrans (a b c : float) :
  (a <? c)%float = true -> is_nan b = false ->
  (a <? b)%float = true \/ (b <? c)%float = true.
Proof. rewrite !ltb_spec, is_nan_spec. apply SFltb_cotrans. Qed.

Lemma ltb_not_nan (a b : float) :
  (a <? b)%float = true -> is_nan a = false /\ is_nan b = false.
Proof. rewrite ltb_spec, !is_nan_spec. apply SFltb_not_nan. Qed.

Lemma leb_of_not_ltb (a b : float) :
  is_nan a = false -> is_nan b = false ->
  (a <? b)%float = false -> (b <=? a)%float = true.
Proof. rewrite ltb_spec, leb_spec, !is_nan_spec. apply SFleb_of_not_ltb. Qed.

(** Signs: a radial height is a NaN or is not negative. *)

Lemma round_aux_nonneg (m e : Z) (l : location) :
  SFnonneg (binary_round_aux prec emax false m e l).
Proof.
  unfold binary_round_aux.
  destruct (shr_fexp prec emax m e l) as [mrs' e'].
  destruct (shr_fexp prec emax _ e' loc_Exact) as [mrs'' e''].
  destruct (shr_m mrs''); [reflexivity | | exact I].
  destruct (e'' <=? emax - prec)%Z; reflexivity.
Qed.

Lemma SFmul_self_nonneg (a : spec_float) : SFnonneg (SF64mul a a).
Proof.
  destruct a as [[]|[]| |[] m e]; try exact I; try reflexivity;
    apply round_aux_nonneg.
Qed.

Lemma SFadd_nonneg (a b : spec_float) :
  SFnonneg a -> SFnonneg b -> SFnonneg (SF64add a b).
Proof.
  destruct a as [sa|sa| |sa ma ea], b as [sb|sb| |sb mb eb]; cbn;
    intros Ha Hb; subst; try exact I; try reflexivity.
  unfold SF64add, SFadd, binary_normalize, binary_round. cbn [cond_Zopp Z.add].
  destruct (shl_align _ _ _) as [mz ez]. apply round_aux_nonneg.
Qed.

Lemma SFsqrt_nonneg (a : spec_float) : SFnonneg a -> SFnonneg (SF64sqrt a).
Proof.
  destruct a as [sa|sa| |sa ma ea]; cbn; intros Ha; subst; try exact I;
    try reflexivity.
  unfold SF64sqrt, SFsqrt.
  destruct (SFsqrt_core_binary prec emax (Z.pos ma) ea) as [[mz ez] lz].
  apply round_aux_nonneg.
Qed.

Lemma SFltb_floor (h : spec_float) :
  SFnonneg h -> h <> S754_nan -> SFltb (Prim2SF floor_ap) h = true.
Proof.
  remember (Prim2SF floor_ap) as f eqn:Ef. vm_compute in Ef. subst f.
  destruct h as [s|s| |s m e]; cbn; intros Hs Hn; subst; congruence.
Qed.

(** Every radial height that is a number lies above the initial value. *)
Lemma radial_height_above_floor (seg : RaySeg) :
  is_nan (radial_height seg) = false ->
  (floor_ap <? radial_height seg)%float = true.
Proof.
  rewrite is_nan_spec, ltb_spec. apply SFltb_floor.
  unfold radial_height. rewrite sqrt_spec, add_spec, !mul_spec.
  apply SFsqrt_nonneg, SFadd_nonneg; apply SFmul_self_nonneg.
Qed.

(** ** The search loop of calc_vignetted_ray *)

Lemma checked_traces_app (a b : list event) :
  checked_traces (a ++ b) = checked_traces a + checked_traces b.
Proof. unfold checked_traces. now rewrite filter_app, length_app. Qed.

Lemma on_axis_not_checked (xy : axis) (evs : list event) :
  Forall (on_axis xy) evs -> checked_traces evs = 0.
Proof.
  induction 1 as [|ev evs Hev _ IH]; [reflexivity|].
  unfold checked_traces in *. cbn.
  destruct ev as [c chk|x0]; cbn in *; [|exact IH].
  destruct Hev as [-> _]. exact IH.
Qed.

Section SearchFacts.

Context {St : Type}.
Variable trace_base : pupil -> bool -> St -> TraceOutcome * St.
Variable newton : float -> float -> solver.
Variable ifcs : list Interface.
Variable stop_surface : option nat.

Local Abbreviation step := (search_step trace_base newton ifcs stop_surface).
Local Abbreviation loop := (while_search trace_base newton ifcs stop_surface).
Local Abbreviation iterate := (iterate_pupil_ray trace_base newton).
Local Abbreviation search := (vignetted_search trace_base newton ifcs stop_surface).
Local Abbreviation calc := (calc_vignetted_ray trace_base newton ifcs stop_surface).

(** Aiming at the edge of interface [indx]: the code shared by the two
    branches of the loop body that go on iterating. *)
Lemma aim_eq (indx : nat) (xy : axis) (c : float) (n : nat)
      (pkg : option ray_result) (w : world St) :
  bind (index ifcs indx)
       (fun ifc => bind (iterate (Some indx) xy c (surface_od ifc))
                        (fun rel => ret (mkSearch rel true (Some indx) n pkg))) w
  = match nth_error ifcs indx with
    | Some ifc =>
        match iterate (Some indx) xy c (surface_od ifc) w with
        | (Val rel, w') => (Val (mkSearch rel true (Some indx) n pkg), w')
        | (Exc e, w') => (Exc e, w')
        end
    | None => (Exc IndexError, w)
    end.
Proof.
  unfold bind, index. destruct (nth_error ifcs indx) as [ifc|]; reflexivity.
Qed.

Lemma aim_calls (indx : nat) (xy : axis) (c : float) (n : nat)
      (pkg : option ray_result) (w : world St) :
  exists evs,
    calls (snd (bind (index ifcs indx)
       (fun ifc => bind (iterate (Some indx) xy c (surface_od ifc))
                        (fun rel => ret (mkSearch rel true (Some indx) n pkg))) w))
      = calls w ++ evs
    /\ Forall (on_axis xy) evs.
Proof.
  rewrite aim_eq. destruct (nth_error ifcs indx) as [ifc|].
  - destruct (iterate_pupil_ray_calls trace_base newton (Some indx) xy c
                (surface_od ifc) w) as (evs & Hc & Hf).
    exists evs. split; [|exact Hf].
    destruct (iterate (Some indx) xy c (surface_od ifc) w) as [[rel|e] w'];
      exact Hc.
  - exists []. split; [now rewrite app_nil_r | constructor].
Qed.

Lemma aim_value (indx : nat) (xy : axis) (c : float) (n : nat)
      (pkg : option ray_result) (w w' : world St) (st' : search_state) :
  bind (index ifcs indx)
       (fun ifc => bind (iterate (Some indx) xy c (surface_od ifc))
                        (fun rel => ret (mkSearch rel true (Some indx) n pkg))) w
  = (Val st', w') ->
  iter_count st' = n /\ ray_pkg st' = pkg /\ last_indx st' = Some indx.
Proof.
  rewrite aim_eq. destruct (nth_error ifcs indx) as [ifc|]; [|discriminate].
  destruct (iterate (Some indx) xy c (surface_od ifc) w) as [[rel|e] w1];
    [|discriminate].
  intros [= <- <-]. now repeat split.
Qed.

(** One pass makes one checked trace, from the current coordinate, and then
    only calls of a pupil-ray iteration. *)
Lemma search_step_calls (xy : axis) (st : search_state) (w : world St) :
  exists evs,
    calls (snd (step xy st w))
      = calls w ++ EvTrace (rel_p1 st) true :: evs
    /\ Forall (on_axis xy) evs.
Proof.
  unfold search_step. rewrite trace_call_eq.
  set (w1 := mkWorld _ _).
  assert (Hnil : exists evs, calls w1 = calls w ++ EvTrace (rel_p1 st) true :: evs
                             /\ Forall (on_axis xy) evs)
    by (exists []; split; [reflexivity | constructor]).
  assert (Haim : forall indx n pkg, exists evs,
    calls (snd (bind (index ifcs indx)
       (fun ifc => bind (iterate (Some indx) xy (getc (rel_p1 st) xy) (surface_od ifc))
                        (fun rel => ret (mkSearch rel true (Some indx) n pkg))) w1))
      = calls w ++ EvTrace (rel_p1 st) true :: evs
    /\ Forall (on_axis xy) evs).
  { intros indx n pkg.
    destruct (aim_calls indx xy (getc (rel_p1 st) xy) n pkg w1) as (evs & Hc & Hf).
    exists evs. split; [|exact Hf]. rewrite Hc. subst w1. cbn [calls].
    now rewrite <- app_assoc. }
  destruct (fst (trace_base (rel_p1 st) true (tracer w))) as [pkg|k s r].
  - destruct (last_indx st) as [j|]; [exact Hnil|].
    destruct stop_surface as [stop_indx|]; [apply Haim | exact Hnil].
  - destruct (same_indx s (last_indx st)); [exact Hnil | apply Haim].
Qed.

(** A completed pass has counted itself and bound [ray_pkg]. *)
Lemma search_step_value (xy : axis) (st st' : search_state) (w w' : world St) :
  step xy st w = (Val st', w') ->
  iter_count st' = S (iter_count st) /\ ray_pkg st' <> None.
Proof.
  unfold search_step. rewrite trace_call_eq.
  set (w1 := mkWorld _ _).
  destruct (fst (trace_base (rel_p1 st) true (tracer w))) as [pkg|k s r].
  - destruct (last_indx st) as [j|].
    + intros [= <- <-]. now split.
    + destruct stop_surface as [stop_indx|].
      * intros H. apply aim_value in H as (-> & -> & _). now split.
      * intros [= <- <-]. now split.
  - destruct (same_indx s (last_indx st)).
    + intros [= <- <-]. now split.
    + intros H. apply aim_value in H as (-> & -> & _). now split.
Qed.

(** A pass that goes on iterating has recorded the surface it aimed at:
    the surface where its trace failed, or the stop surface after a first
    trace that succeeded. *)
Lemma search_step_continues (xy : axis) (st st' : search_state)
      (w w' : world St) :
  step xy st w = (Val st', w') ->
  still_iterating st' = true ->
  exists S_,
    last_indx st' = Some S_
    /\ ((exists k r, fst (trace_base (rel_p1 st) true (tracer w)) = Failed k S_ r)
        \/ ((exists pkg, fst (trace_base (rel_p1 st) true (tracer w)) = Traced pkg)
            /\ last_indx st = None /\ stop_surface = Some S_)).
Proof.
  unfold search_step. rewrite trace_call_eq.
  set (w1 := mkWorld _ _).
  destruct (fst (trace_base (rel_p1 st) true (tracer w))) as [pkg|k s r].
  - destruct (last_indx st) as [j|].
    + intros [= <- <-]. discriminate.
    + destruct stop_surface as [stop_indx|].
      * intros H _. apply aim_value in H as (_ & _ & H).
        exists stop_indx. split; [exact H|]. right. split; [now exists pkg | now split].
      * intros [= <- <-]. discriminate.
  - destruct (same_indx s (last_indx st)).
    + intros [= <- <-]. discriminate.
    + intros H _. apply aim_value in H as (_ & _ & H).
      exists s. split; [exact H|]. left. now exists k, r.
Qed.

Lemma loop_guard_false (xy : axis) (max fuel : nat) (st : search_state)
      (w : world St) :
  still_iterating st && (iter_count st <? max) = false ->
  loop xy max fuel st w = (Val (Some st), w).
Proof. intros G. destruct fuel; cbn [while_search]; now rewrite G. Qed.

Lemma loop_guard_true (xy : axis) (max fuel : nat) (st : search_state)
      (w : world St) :
  still_iterating st && (iter_count st <? max) = true ->
  loop xy max (S fuel) st w =
    match step xy st w with
    | (Val st', w') => loop xy max fuel st' w'
    | (Exc e, w') => (Exc e, w')
    end.
Proof. intros G. cbn [while_search]. rewrite G. reflexivity. Qed.

(** The loop is left within [max_iter_count - iter_count] passes. *)
Lemma loop_total (xy : axis) (max : nat) :
  forall (fuel : nat) (st : search_state) (w : world St),
    max - iter_count st <= fuel ->
    fst (loop xy max fuel st w) <> Val None.
Proof.
  induction fuel as [|fuel IH]; intros st w Hfuel;
    destruct (still_iterating st && (iter_count st <? max)) eqn:G;
    try (rewrite loop_guard_false by exact G; discriminate).
  - apply andb_prop in G as [_ G]. apply Nat.ltb_lt in G. lia.
  - rewrite loop_guard_true by exact G.
    destruct (step xy st w) as [[st'|e] w'] eqn:E; [|discriminate].
    apply IH. apply search_step_value in E as [E _]. lia.
Qed.

(** Every pass makes exactly one checked trace, so the passes can be
    counted in the list of calls. *)
Lemma loop_calls (xy : axis) (max : nat) :
  forall (fuel : nat) (st : search_state) (w : world St),
  exists evs,
    calls (snd (loop xy max fuel st w)) = calls w ++ evs
    /\ checked_traces evs <= max - iter_count st
    /\ forall st', fst (loop xy max fuel st w) = Val (Some st') ->
                   iter_count st' = iter_count st + checked_traces evs.
Proof.
  induction fuel as [|fuel IH]; intros st w;
    destruct (still_iterating st && (iter_count st <? max)) eqn:G;
    try (rewrite loop_guard_false by exact G; exists []; cbn;
         rewrite app_nil_r;
         repeat split; [lia | intros st' [= <-]; lia]).
  - exists []. cbn [while_search]. rewrite G, app_nil_r. cbn.
    repeat split; [lia | discriminate].
  - rewrite loop_guard_true by exact G.
    apply andb_prop in G as [_ G]. apply Nat.ltb_lt in G.
    destruct (search_step_calls xy st w) as (evs1 & Hc1 & Hf1).
    apply on_axis_not_checked in Hf1.
    destruct (step xy st w) as [[st1|e] w1] eqn:E; cbn [snd] in Hc1.
    + apply search_step_value in E as [E _].
      destruct (IH st1 w1) as (evs2 & Hc2 & Hle & Hcount).
      exists (EvTrace (rel_p1 st) true :: evs1 ++ evs2).
      assert (Hn : checked_traces (EvTrace (rel_p1 st) true :: evs1 ++ evs2)
                   = S (checked_traces evs2)).
      { change (EvTrace (rel_p1 st) true :: evs1 ++ evs2)
          with ([EvTrace (rel_p1 st) true] ++ evs1 ++ evs2).
        rewrite !checked_traces_app, Hf1. reflexivity. }
      rewrite Hn. repeat split.
      * rewrite Hc2, Hc1, <- app_assoc. reflexivity.
      * lia.
      * intros st' Hst'. rewrite (Hcount st' Hst'). lia.
    + exists (EvTrace (rel_p1 st) true :: evs1).
      change (EvTrace (rel_p1 st) true :: evs1)
        with ([EvTrace (rel_p1 st) true] ++ evs1).
      rewrite checked_traces_app, Hf1. cbn [fst snd].
      repeat split; [exact Hc1 | cbn; lia | discriminate].
Qed.

(** On leaving the loop its condition is false, and [ray_pkg] is bound as
    soon as one pass was made. *)
Lemma loop_exit (xy : axis) (max : nat) :
  forall (fuel : nat) (st st' : search_state) (w : world St),
    fst (loop xy max fuel st w) = Val (Some st') ->
    still_iterating st' && (iter_count st' <? max) = false
    /\ (st' = st \/ ray_pkg st' <> None).
Proof.
  induction fuel as [|fuel IH]; intros st st' w;
    destruct (still_iterating st && (iter_count st <? max)) eqn:G;
    try (rewrite loop_guard_false by exact G; intros [= <-]; auto).
  - cbn [while_search]. rewrite G. discriminate.
  - rewrite loop_guard_true by exact G.
    destruct (step xy st w) as [[st1|e] w1] eqn:E; [|discriminate].
    intros H. apply IH in H as [Hg [-> | Hp]]; split; auto.
    right. now apply search_step_value in E.
Qed.

Lemma calc_eq (xy : axis) (start_dir : pupil) (max : nat) (w : world St) :
  calc xy start_dir max w =
    match search xy start_dir max w with
    | (Val (Some st), w') =>
        match ray_pkg st with
        | Some pkg =>
            (Val (Some (vig_factor xy start_dir (rel_p1 st), last_indx st, pkg)), w')
        | None => (Exc UnboundLocalError, w')
        end
    | (Val None, w') => (Val None, w')
    | (Exc e, w') => (Exc e, w')
    end.
Proof.
  unfold calc_vignetted_ray, bind, finish, ret, raise.
  destruct (search xy start_dir max w) as [[[st|]|e] w']; try reflexivity.
  destruct (ray_pkg st); reflexivity.
Qed.

(** X19.  The bound of the search loop.  For [max_iter_count >= 1]: the loop of
    [calc_vignetted_ray] is left within [max_iter_count] passes (the fuel
    [max_iter_count] is never used up), at most [max_iter_count] checked
    traces are made, and when the loop ends, by convergence or because
    [iter_count] has reached the bound while still iterating, the function
    returns the factor computed from the coordinate reached, without raising. *)
Theorem X19_search_is_bounded_from_one_pass
        (xy : axis) (start_dir : pupil) (max_iter_count : nat) (w : world St) :
  1 <= max_iter_count ->
  let run := search xy start_dir max_iter_count w in
  let out := calc xy start_dir max_iter_count w in
  fst run <> Val None
  /\ fst out <> Val None
  /\ (exists evs, calls (snd out) = calls w ++ evs
                  /\ checked_traces evs <= max_iter_count)
  /\ (forall st,
         fst run = Val (Some st) ->
         iter_count st <= max_iter_count
         /\ (still_iterating st = true -> iter_count st = max_iter_count)
         /\ exists pkg,
             ray_pkg st = Some pkg
             /\ out = (Val (Some (vig_factor xy start_dir (rel_p1 st),
                                  last_indx st, pkg)), snd run)).
Proof.
  intros Hmax run out.
  assert (Htot : fst run <> Val None)
    by (apply loop_total; cbn; lia).
  destruct (loop_calls xy max_iter_count max_iter_count (init_search start_dir) w)
    as (evs & Hc & Hle & Hcount).
  fold (search xy start_dir max_iter_count w) in Hc, Hcount. fold run in Hc, Hcount.
  cbn [iter_count init_search] in Hle, Hcount.
  assert (Hst : forall st, fst run = Val (Some st) ->
            iter_count st <= max_iter_count
            /\ (still_iterating st = true -> iter_count st = max_iter_count)
            /\ ray_pkg st <> None).
  { intros st Hrun. pose proof (Hcount st Hrun) as Hn.
    apply loop_exit in Hrun as [Hg Hp]. repeat split.
    - lia.
    - intros Hs. rewrite Hs in Hg. apply Nat.ltb_ge in Hg. lia.
    - destruct Hp as [-> | Hp]; [|exact Hp].
      cbn [init_search still_iterating iter_count andb] in Hg.
      apply Nat.ltb_ge in Hg. lia. }
  subst out. rewrite calc_eq. fold run.
  destruct run as [[[st|]|e] w'] eqn:E; cbn [fst snd] in *.
  - destruct (Hst st eq_refl) as (H1 & H2 & H3).
    destruct (ray_pkg st) as [pkg|] eqn:Ep; [|contradiction].
    split; [discriminate|]. split; [discriminate|]. split.
    + exists evs. split; [exact Hc | lia].
    + intros st2 [= <-]. split; [exact H1|]. split; [exact H2|].
      exists pkg. now rewrite Ep.
  - contradiction.
  - split; [discriminate|]. split; [discriminate|]. split.
    + exists evs. split; [exact Hc | lia].
    + discriminate.
Qed.

(** C2 (code bug).  With [max_iter_count = 0], for every tracer, root
    finder, system, axis and starting direction: the loop is not entered (no
    pass, no call, [iter_count] stays 0), [ray_pkg] has never been bound, and
    the return statement of [calc_vignetted_ray] raises [UnboundLocalError]
    where the claim has the function return without raising. *)
Theorem C2_zero_bound_raises_unbound_local
        (xy : axis) (start_dir : pupil) (w : world St) :
  search xy start_dir 0 w = (Val (Some (init_search start_dir)), w)
  /\ iter_count (init_search start_dir) = 0
  /\ ray_pkg (init_search start_dir) = None
  /\ calc xy start_dir 0 w = (Exc UnboundLocalError, w).
Proof.
  assert (Hsearch : search xy start_dir 0 w
                    = (Val (Some (init_search start_dir)), w))
    by (unfold vignetted_search; now apply loop_guard_false).
  split; [exact Hsearch|]. split; [reflexivity|]. split; [reflexivity|].
  now rewrite calc_eq, Hsearch.
Qed.

Lemma calc_value (xy : axis) (start_dir : pupil) (max : nat) (w w' : world St)
      (vig : float) (last : option nat) (pkg : ray_result) :
  calc xy start_dir max w = (Val (Some (vig, last, pkg)), w') ->
  exists st,
    search xy start_dir max w = (Val (Some st), w')
    /\ vig = vig_factor xy start_dir (rel_p1 st)
    /\ last = last_indx st
    /\ ray_pkg st = Some pkg.
Proof.
  rewrite calc_eq.
  destruct (search xy start_dir max w) as [[[st|]|e] w1]; try discriminate.
  destruct (ray_pkg st) as [pkg1|] eqn:Ep; [|discriminate].
  intros [= <- <- <- <-]. exists st. now repeat split.
Qed.

(** C3.  Whenever [calc_vignetted_ray] returns, the factor it returns is
    [1 - c/c0] for the active-axis component [c] of the coordinate the loop
    ended with and the active-axis component [c0] of the starting direction. *)
Theorem C3_vignetting_factor_formula
        (xy : axis) (start_dir : pupil) (max_iter_count : nat) (w w' : world St)
        (vig : float) (last : option nat) (pkg : ray_result) :
  calc xy start_dir max_iter_count w = (Val (Some (vig, last, pkg)), w') ->
  exists st,
    search xy start_dir max_iter_count w = (Val (Some st), w')
    /\ vig = (1 - getc (rel_p1 st) xy / getc start_dir xy)%float
    /\ last = last_indx st
    /\ ray_pkg st = Some pkg.
Proof.
  intros H. apply calc_value in H as (st & Hs & Hv & Hl & Hp).
  exists st. now repeat split.
Qed.


(** C10.  When the active-axis component of the starting direction is a
    zero, every factor [calc_vignetted_ray] returns is the result of a
    division by that zero: a NaN or an infinity, never a finite number. *)
Theorem C10_zero_start_component_gives_no_factor
        (xy : axis) (start_dir : pupil) (max_iter_count : nat) (w w' : world St)
        (vig : float) (last : option nat) (pkg : ray_result) :
  (getc start_dir xy =? 0)%float = true ->
  calc xy start_dir max_iter_count w = (Val (Some (vig, last, pkg)), w') ->
  (exists c, vig = (1 - c / getc start_dir xy)%float)
  /\ (vig = nan \/ vig = infinity \/ vig = neg_infinity)
  /\ is_finite vig = false.
Proof.
  intros Hz Hcalc.
  apply calc_value in Hcalc as (st & _ & -> & _). unfold vig_factor.
  split; [now exists (getc (rel_p1 st) xy)|].
  pose proof (one_minus_div_zero (getc (rel_p1 st) xy) _ Hz) as H.
  split; [exact H|]. destruct H as [-> | [-> | ->]]; reflexivity.
Qed.

End SearchFacts.

(** C5 (amended).  With a floating stop, [max_iter_count >= 1], a finite
    nonzero active-axis component of the starting direction and a first
    (checked) trace that succeeds, the search makes that one trace, keeps the
    starting direction as its coordinate, and [calc_vignetted_ray] returns
    the factor 0 exactly, no limiting index and the ray traced from the
    starting direction. *)
Theorem C5_floating_stop_clear_start
        {St : Type} (trace_base : pupil -> bool -> St -> TraceOutcome * St)
        (newton : float -> float -> solver) (ifcs : list Interface)
        (xy : axis) (start_dir : pupil) (max_iter_count : nat) (w : world St)
        (pkg : RayPkg) :
  1 <= max_iter_count ->
  finite_nonzero (getc start_dir xy) = true ->
  fst (trace_base start_dir true (tracer w)) = Traced pkg ->
  let w' := mkWorld (snd (trace_base start_dir true (tracer w)))
                    (calls w ++ [EvTrace start_dir true]) in
  vignetted_search trace_base newton ifcs None xy start_dir max_iter_count w
    = (Val (Some (mkSearch start_dir false None 1 (Some (FullPkg pkg)))), w')
  /\ calc_vignetted_ray trace_base newton ifcs None xy start_dir max_iter_count w
     = (Val (Some (0%float, None, FullPkg pkg)), w').
Proof.
  intros Hmax Hfin Htr w'.
  assert (Hsearch :
    vignetted_search trace_base newton ifcs None xy start_dir max_iter_count w
    = (Val (Some (mkSearch start_dir false None 1 (Some (FullPkg pkg)))), w')).
  { unfold vignetted_search. destruct max_iter_count as [|m]; [lia|].
    rewrite loop_guard_true by reflexivity.
    unfold search_step. rewrite trace_call_eq.
    cbn [init_search last_indx rel_p1 iter_count]. rewrite Htr.
    now apply loop_guard_false. }
  split; [exact Hsearch|].
  rewrite calc_eq, Hsearch. cbn [ray_pkg rel_p1 last_indx].
  unfold vig_factor. rewrite (div_self _ Hfin). reflexivity.
Qed.

(** ** set_ape *)

Lemma run_max_spec (hs : list float) :
  forall m0 : float,
    is_nan m0 = false ->
    is_nan (run_max m0 hs) = false
    /\ (run_max m0 hs <? m0)%float = false
    /\ (forall h, In h hs -> (run_max m0 hs <? h)%float = false)
    /\ (run_max m0 hs = m0 \/ In (run_max m0 hs) hs)
    /\ (run_max m0 hs = m0 -> forall h, In h hs -> (m0 <? h)%float = false).
Proof.
  induction hs as [|h t IH]; intros m0 Hm0; cbn [run_max fold_left].
  - repeat split; auto.
    + destruct (m0 <? m0)%float eqn:E; [|reflexivity].
      rewrite ltb_spec in E. exfalso. revert E. unfold SFltb, SFcompare.
      destruct (Prim2SF m0) as [[]|[]| |[] m e]; try discriminate;
        rewrite Z.compare_refl, Pos.compare_cont_refl; discriminate.
    + intros h [].
    + intros _ h [].
  - fold (run_max (if (m0 <? h)%float then h else m0) t).
    destruct (m0 <? h)%float eqn:E.
    + destruct (ltb_not_nan _ _ E) as [_ Hh].
      destruct (IH h Hh) as (Hn & Hlt & Hall & Hin & Heq).
      set (r := run_max h t) in *.
      assert (Hr0 : (r <? m0)%float = false).
      { destruct (r <? m0)%float eqn:E1; [|reflexivity].
        rewrite (ltb_trans _ _ _ E1 E) in Hlt. discriminate. }
      repeat split; auto.
      * intros h' [<- | Hh']; auto.
      * right. destruct Hin as [-> | Hin]; [now left | now right].
      * intros Hrm. rewrite Hrm in Hlt. congruence.
    + destruct (IH m0 Hm0) as (Hn & Hlt & Hall & Hin & Heq).
      set (r := run_max m0 t) in *.
      repeat split; auto.
      * intros h' [<- | Hh']; auto.
        destruct (r <? h)%float eqn:E1; [|reflexivity].
        destruct (ltb_cotrans _ m0 _ E1 Hm0); congruence.
      * destruct Hin as [-> | Hin]; [now left | right; now right].
      * intros Hrm h' [<- | Hh']; auto.
Qed.

Lemma scan_field_eq (i : nat) (f : list Ray) :
  forall (m : float) (u : bool),
    scan_field i (m, u) f
    = (run_max m (field_heights i f),
       u && forallb (fun r : Ray => i <? length r) f).
Proof.
  unfold scan_field.
  induction f as [|r f IH]; intros m u; cbn [fold_left field_heights flat_map forallb].
  - now rewrite andb_true_r.
  - fold (field_heights i f). unfold scan_ray at 2.
    destruct (nth_error r i) as [seg|] eqn:E.
    + assert (Hlen : (i <? length r) = true)
        by (apply Nat.ltb_lt, nth_error_Some; congruence).
      rewrite Hlen. cbn [app andb].
      destruct (m <? radial_height seg)%float eqn:Elt; rewrite IH;
        unfold run_max; cbn [fold_left]; now rewrite Elt.
    + assert (Hlen : (i <? length r) = false)
        by (apply Nat.ltb_ge, nth_error_None; exact E).
      rewrite Hlen, IH. cbn [app andb]. now rewrite andb_false_r.
Qed.

Lemma run_max_app (m : float) (a b : list float) :
  run_max m (a ++ b) = run_max (run_max m a) b.
Proof. unfold run_max. apply fold_left_app. Qed.

Lemma scan_rayset_from (i : nat) (rayset : list (list Ray)) :
  forall (m : float) (u : bool),
    fold_left (scan_field i) rayset (m, u)
    = (run_max m (heights_at rayset i), u && all_reach rayset i).
Proof.
  induction rayset as [|f fs IH]; intros m u;
    cbn [fold_left heights_at flat_map all_reach forallb].
  - now rewrite andb_true_r.
  - rewrite scan_field_eq, IH. fold (heights_at fs i) (all_reach fs i).
    now rewrite run_max_app, andb_assoc.
Qed.

Lemma scan_rayset_eq (rayset : list (list Ray)) (i : nat) :
  scan_rayset rayset i = (run_max floor_ap (heights_at rayset i), all_reach rayset i).
Proof. unfold scan_rayset. now rewrite scan_rayset_from. Qed.

Lemma set_ape_from_nth (rayset : list (list Ray)) (ifcs : list Interface) :
  forall (i0 j : nat) (ifc : Interface),
    nth_error ifcs j = Some ifc ->
    nth_error (set_ape_from rayset i0 ifcs) j
    = Some (if all_reach rayset (i0 + j)
            then set_max_aperture ifc (run_max floor_ap (heights_at rayset (i0 + j)))
            else ifc).
Proof.
  induction ifcs as [|a rest IH]; intros i0 j ifc; [now destruct j|].
  cbn [set_ape_from]. rewrite scan_rayset_eq.
  destruct j as [|j]; cbn [nth_error].
  - intros [= ->]. now rewrite Nat.add_0_r.
  - intros H. rewrite (IH (S i0) j ifc H). now rewrite Nat.add_succ_r.
Qed.

Lemma all_reach_spec (rayset : list (list Ray)) (i : nat) :
  all_reach rayset i = true <->
  forall f r, In f rayset -> In r f -> i < length r.
Proof.
  unfold all_reach. rewrite forallb_forall. split.
  - intros H f r Hf Hr. specialize (H f Hf). rewrite forallb_forall in H.
    now apply Nat.ltb_lt, H.
  - intros H f Hf. apply forallb_forall. intros r Hr.
    apply Nat.ltb_lt. now apply (H f r).
Qed.

Lemma heights_at_spec (rayset : list (list Ray)) (i : nat) (h : float) :
  In h (heights_at rayset i) <->
  exists f r seg, In f rayset /\ In r f /\ nth_error r i = Some seg
                  /\ h = radial_height seg.
Proof.
  unfold heights_at, field_heights. rewrite in_flat_map. split.
  - intros (f & Hf & Hh). apply in_flat_map in Hh as (r & Hr & Hh).
    destruct (nth_error r i) as [seg|] eqn:E; [|contradiction].
    destruct Hh as [<- | []]. now exists f, r, seg.
  - intros (f & r & seg & Hf & Hr & Hseg & ->).
    exists f. split; [exact Hf|]. apply in_flat_map. exists r.
    split; [exact Hr|]. rewrite Hseg. now left.
Qed.

(** C7.  For the interface at index [i]: [set_ape] replaces its clear
    aperture exactly when every ray of every field has a segment at surface
    [i]; the interface is left as it was as soon as one ray stops short of
    it.  The clear aperture read back from the updated interface is exceeded
    by none of the radial heights [sqrt(x*x + y*y)] of the rays at surface
    [i]; when one of these heights is a number, the new aperture is one of
    the heights and every height that is a number is [<=] it, so it is their
    maximum; and when there is no such height (no ray at all, or NaN heights
    only) it is the initial value -1.0e+10 of the running maximum. *)
Theorem C7_set_ape_maximum_height
        (rayset : list (list Ray)) (ifcs : list Interface) (i : nat)
        (ifc : Interface) :
  nth_error ifcs i = Some ifc ->
  let reaches h :=
    exists f r seg, In f rayset /\ In r f /\ nth_error r i = Some seg
                    /\ h = radial_height seg in
  (all_reach rayset i = true <->
   forall f r, In f rayset -> In r f -> i < length r)
  /\ (all_reach rayset i = false ->
      nth_error (set_ape rayset ifcs) i = Some ifc)
  /\ (all_reach rayset i = true ->
      exists ifc',
        nth_error (set_ape rayset ifcs) i = Some ifc'
        /\ (forall h, reaches h -> (max_aperture ifc' <? h)%float = false)
        /\ ((exists h, reaches h /\ is_nan h = false) ->
            reaches (max_aperture ifc')
            /\ forall h, reaches h -> is_nan h = false ->
                         (h <=? max_aperture ifc')%float = true)
        /\ ((forall h, reaches h -> is_nan h = true) ->
            max_aperture ifc' = (-1.0e+10)%float)).
Proof.
  intros Hifc reaches.
  split; [apply all_reach_spec|].
  pose proof (set_ape_from_nth rayset ifcs 0 i ifc Hifc) as Hnth.
  cbn [Nat.add] in Hnth. fold (set_ape rayset ifcs) in Hnth.
  split; intros Hall; rewrite Hall in Hnth; [exact Hnth|].
  exists (set_max_aperture ifc (run_max floor_ap (heights_at rayset i))).
  split; [exact Hnth|].
  destruct (run_max_spec (heights_at rayset i) floor_ap eq_refl)
    as (Hn & _ & Hdom & Hin & Heq).
  cbn [set_max_aperture max_aperture].
  set (m := run_max floor_ap (heights_at rayset i)) in *.
  split; [|split].
  - intros h Hh. apply Hdom, heights_at_spec, Hh.
  - intros (h0 & Hh0 & Hnan0).
    assert (Hm : In m (heights_at rayset i)).
    { destruct Hin as [Hm|Hm]; [|exact Hm]. exfalso.
      pose proof (Heq Hm h0 (proj2 (heights_at_spec rayset i h0) Hh0)) as Hle.
      destruct Hh0 as (f & r & seg & _ & _ & _ & ->).
      rewrite (radial_height_above_floor seg Hnan0) in Hle. discriminate. }
    split; [apply heights_at_spec, Hm|].
    intros h Hh Hnan. apply leb_of_not_ltb; [exact Hn | exact Hnan|].
    apply Hdom, heights_at_spec, Hh.
  - intros Hnone. destruct Hin as [Hm|Hm]; [exact Hm|]. exfalso.
    apply heights_at_spec in Hm. apply Hnone in Hm. congruence.
Qed.

(** ** The scenarios, evaluated *)

(** The scenario of the specification converges to the coordinate 0.5 and
    the factor 0.5, limited by surface 1. *)
Example stop_edge_scenario :
  exists pkg w',
    Scenario.stop_edge_run = (Val (Some (0.5%float, Some 1, pkg)), w')
    /\ checked_traces (calls w') = 2.
Proof. do 2 eexists. split; reflexivity. Qed.

(** The alternating tracer keeps the search going until the bound: ten
    passes, ten checked traces, and a result. *)
Example alternating_scenario :
  exists st w',
    vignetted_search Scenario.alternating_tracer Scenario.newton50
                     Scenario.three_ifcs None X (1, 0)%float 10 (mkWorld 0 [])
    = (Val (Some st), w')
    /\ iter_count st = 10 /\ still_iterating st = true
    /\ checked_traces (calls w') = 10.
Proof. do 2 eexists. vm_compute. repeat split. Qed.

(** The aperture scenario of the specification. *)
Example set_ape_scenario :
  set_ape [Scenario.field_A; Scenario.field_B] Scenario.two_ifcs
  = [mkIfc 4 9; mkIfc 7 9]%float.
Proof. reflexivity. Qed.

(** ** Instances of the theorems *)

Lemma C1_witness :
  r_pupil_coordinate Scenario.tir_tracer 2 X 5 0.5 Scenario.w0
  = (Exc (TraceError TIR 1 (firstn 2 (Scenario.linear_ray (0.5, 0)%float))),
     mkWorld tt [EvTrace (0.5, 0)%float false])
  /\ r_pupil_coordinate Scenario.tir_tracer 1 X 5 0.5 Scenario.w0
     = (Val 0%float, mkWorld tt [EvTrace (0.5, 0)%float false]).
Proof.
  split.
  - apply (C1_objective_failure_policy Scenario.tir_tracer 2 X 5 0.5
             Scenario.w0 TIR 1 _ eq_refl); [reflexivity | lia].
  - pose proof (C1_objective_failure_policy Scenario.tir_tracer 1 X 5 0.5
                  Scenario.w0 TIR 1 _ eq_refl) as (_ & _ & _ & H & _).
    rewrite (H eq_refl (le_n 1)). reflexivity.
Defined.

(** The claim as first stated fails: a total internal reflection at the
    target surface itself is not re-raised. *)
Lemma C1_counterexample :
  ~ (forall (trace_base : pupil -> bool -> unit -> TraceOutcome * unit)
            (indx : nat) (xy : axis) (r_target xy_coord : float)
            (w : world unit) (k : failure_kind) (surf : nat) (partial : Ray),
        fst (trace_base (setc (0, 0)%float xy xy_coord) false (tracer w))
          = Failed k surf partial ->
        k = Missed \/ k = TIR ->
        surf <= indx ->
        fst (r_pupil_coordinate trace_base indx xy r_target xy_coord w)
          = Exc (TraceError k surf partial)).
Proof.
  intros H.
  specialize (H Scenario.tir_tracer 1 X 5%float 0.5%float Scenario.w0 TIR 1 _
                eq_refl (or_intror eq_refl) (le_n 1)).
  vm_compute in H. discriminate H.
Qed.

Lemma X19_witness :
  let run := vignetted_search Scenario.alternating_tracer Scenario.newton50
               Scenario.three_ifcs None X (1, 0)%float 10 (mkWorld 0 []) in
  let out := calc_vignetted_ray Scenario.alternating_tracer Scenario.newton50
               Scenario.three_ifcs None X (1, 0)%float 10 (mkWorld 0 []) in
  fst run <> Val None
  /\ fst out <> Val None
  /\ (exists evs, calls (snd out) = [] ++ evs /\ checked_traces evs <= 10)
  /\ (forall st,
         fst run = Val (Some st) ->
         iter_count st <= 10
         /\ (still_iterating st = true -> iter_count st = 10)
         /\ exists pkg,
             ray_pkg st = Some pkg
             /\ out = (Val (Some (vig_factor X (1, 0)%float (rel_p1 st),
                                  last_indx st, pkg)), snd run)).
Proof.
  apply (X19_search_is_bounded_from_one_pass Scenario.alternating_tracer Scenario.newton50
           Scenario.three_ifcs None X (1, 0)%float 10 (mkWorld 0 [])).
  lia.
Defined.

(** The failing input [max_iter_count = 0] on the scenario of the
    specification: the loop is not entered, [ray_pkg] is never bound, and the
    return raises. *)
Example zero_bound_scenario :
  fst (calc_vignetted_ray Scenario.stop_edge_tracer Scenario.newton50
         Scenario.three_ifcs (Some 1) X (1, 0)%float 0 Scenario.w0)
  = Exc UnboundLocalError.
Proof. reflexivity. Qed.

Lemma C3_witness :
  exists st,
    vignetted_search Scenario.stop_edge_tracer Scenario.newton50
                     Scenario.three_ifcs (Some 1) X (1, 0)%float 10 Scenario.w0
    = (Val (Some st), snd Scenario.stop_edge_run)
    /\ 0.5%float = (1 - getc (rel_p1 st) X / getc (1, 0)%float X)%float
    /\ Some 1 = last_indx st
    /\ ray_pkg st
       = Some (FullPkg (Scenario.pkg_of (Scenario.linear_ray (0.5, 0)%float))).
Proof.
  apply (C3_vignetting_factor_formula Scenario.stop_edge_tracer Scenario.newton50
           Scenario.three_ifcs (Some 1) X (1, 0)%float 10 Scenario.w0).
  vm_compute. reflexivity.
Defined.


Lemma C5_witness :
  vignetted_search Scenario.stop_edge_tracer Scenario.newton50
                   Scenario.three_ifcs None X (0.25, 0)%float 10 Scenario.w0
  = (Val (Some (mkSearch (0.25, 0)%float false None 1
                  (Some (FullPkg (Scenario.pkg_of
                                    (Scenario.linear_ray (0.25, 0)%float)))))),
     mkWorld tt [EvTrace (0.25, 0)%float true])
  /\ calc_vignetted_ray Scenario.stop_edge_tracer Scenario.newton50
                        Scenario.three_ifcs None X (0.25, 0)%float 10 Scenario.w0
     = (Val (Some (0%float, None,
                   FullPkg (Scenario.pkg_of (Scenario.linear_ray (0.25, 0)%float)))),
        mkWorld tt [EvTrace (0.25, 0)%float true]).
Proof.
  apply (C5_floating_stop_clear_start Scenario.stop_edge_tracer Scenario.newton50
           Scenario.three_ifcs X (0.25, 0)%float 10 Scenario.w0
           (Scenario.pkg_of (Scenario.linear_ray (0.25, 0)%float)));
    [lia | reflexivity | reflexivity].
Defined.

(** The claim as first stated fails: with a floating stop and a starting
    ray that is blocked at surface 1, the search moves the coordinate to the
    edge of that surface and the factor is 0.5, not 0. *)
Lemma C5_counterexample :
  exists pkg w',
    calc_vignetted_ray Scenario.stop_edge_tracer Scenario.newton50
                       Scenario.three_ifcs None X (1, 0)%float 10 Scenario.w0
    = (Val (Some (0.5%float, Some 1, pkg)), w')
    /\ 0.5%float <> 0%float
    /\ exists st,
        vignetted_search Scenario.stop_edge_tracer Scenario.newton50
                         Scenario.three_ifcs None X (1, 0)%float 10 Scenario.w0
        = (Val (Some st), w')
        /\ rel_p1 st = (0.5, 0)%float.
Proof.
  do 2 eexists. split; [vm_compute; reflexivity|]. split.
  - intros H. apply (f_equal Prim2SF) in H. vm_compute in H. discriminate H.
  - eexists. split; vm_compute; reflexivity.
Qed.

Lemma C6_witness :
  let objective := r_pupil_coordinate Scenario.missing_tracer 1 X 5 in
  let run := call_newton Scenario.newton50 objective 1 Scenario.w0 in
  let out := iterate_pupil_ray Scenario.missing_tracer Scenario.newton50
                               (Some 1) X 1 5 Scenario.w0 in
  out = (Val (0, 0)%float, mkWorld tt [EvNewton 1; EvTrace (1, 0)%float false]).
Proof.
  intros objective run out.
  pose proof (C6_no_failure_on_nonconvergence_or_trace_error
                Scenario.missing_tracer Scenario.newton50 1 X 1 5 Scenario.w0)
    as (_ & H & _).
  destruct (H Missed 1 (firstn 1 (Scenario.linear_ray (1, 0)%float)) eq_refl)
    as (Hout & _).
  exact Hout.
Defined.

(** A root finder that runs out of budget: its estimate is used. *)
Example nonconvergence_scenario :
  exists x results w',
    call_newton Scenario.newton0
                (r_pupil_coordinate Scenario.stop_edge_tracer 1 X 5) 1 Scenario.w0
    = (Val (x, results), w')
    /\ converged results = false
    /\ iterate_pupil_ray Scenario.stop_edge_tracer Scenario.newton0 (Some 1) X 1 5
                         Scenario.w0
       = (Val (x, 0%float), w').
Proof. do 3 eexists. vm_compute. repeat split. Qed.

Lemma C7_witness :
  nth_error (set_ape [Scenario.field_A; Scenario.field_B] Scenario.two_ifcs) 1
    = Some (mkIfc 7 9)%float
  /\ exists ifc',
      nth_error (set_ape [Scenario.field_A; Scenario.field_B] Scenario.two_ifcs) 0
        = Some ifc'
      /\ max_aperture ifc' = 4%float.
Proof.
  split.
  - apply (C7_set_ape_maximum_height [Scenario.field_A; Scenario.field_B]
             Scenario.two_ifcs 1 (mkIfc 7 9)%float eq_refl).
    reflexivity.
  - destruct (C7_set_ape_maximum_height [Scenario.field_A; Scenario.field_B]
                Scenario.two_ifcs 0 (mkIfc 1 9)%float eq_refl)
      as (_ & _ & H).
    destruct (H eq_refl) as (ifc' & Hnth & _ & Hmax & _).
    exists ifc'. split; [exact Hnth|].
    assert (Hr : exists f r seg,
               In f [Scenario.field_A; Scenario.field_B] /\ In r f
               /\ nth_error r 0 = Some seg /\ 4%float = radial_height seg).
    { exists Scenario.field_A, [Scenario.seg_at 0 4; Scenario.seg_at 0 2]%float,
        (Scenario.seg_at 0 4)%float.
      repeat split; cbn; auto. }
    destruct Hmax as ((f & r & seg & Hf & Hin & Hseg & Hm) & Hle).
    + exists 4%float. split; [exact Hr | reflexivity].
    + specialize (Hle 4%float Hr eq_refl). rewrite Hm in Hle. rewrite Hm.
      destruct Hf as [<- | [<- | []]]; cbn [Scenario.field_A Scenario.field_B In] in Hin;
        repeat (destruct Hin as [<- | Hin]); try contradiction;
        injection Hseg as <-; first [reflexivity | discriminate Hle].
Defined.

Lemma C10_witness :
  exists pkg w',
    Scenario.zero_start_run = (Val (Some (neg_infinity, Some 1, pkg)), w')
    /\ is_finite neg_infinity = false.
Proof.
  do 2 eexists. split; [reflexivity|].
  eapply (C10_zero_start_component_gives_no_factor Scenario.stop_edge_tracer
            Scenario.newton50 Scenario.three_ifcs (Some 1) X (0, 1)%float 10
            Scenario.w0);
    [reflexivity | vm_compute; reflexivity].
Defined.

(** * Further properties *)

(** ** set_ape *)

Lemma set_ape_from_length (rayset : list (list Ray)) (ifcs : list Interface) :
  forall i0 : nat, length (set_ape_from rayset i0 ifcs) = length ifcs.
Proof.
  induction ifcs as [|a rest IH]; intros i0; [reflexivity|].
  cbn [set_ape_from]. destruct (scan_rayset rayset i0) as [m u].
  cbn [length]. now rewrite IH.
Qed.

(** The interface at index [j] after [set_ape], present or not. *)
Lemma set_ape_nth (rayset : list (list Ray)) (ifcs : list Interface) (j : nat) :
  nth_error (set_ape rayset ifcs) j
  = option_map
      (fun ifc => if all_reach rayset j
                  then set_max_aperture ifc (run_max floor_ap (heights_at rayset j))
                  else ifc)
      (nth_error ifcs j).
Proof.
  destruct (nth_error ifcs j) as [ifc|] eqn:E; cbn [option_map].
  - unfold set_ape. now rewrite (set_ape_from_nth rayset ifcs 0 j ifc E).
  - apply nth_error_None. unfold set_ape. rewrite set_ape_from_length.
    now apply nth_error_None.
Qed.

Lemma set_ape_from_idempotent (rayset : list (list Ray)) (ifcs : list Interface) :
  forall i0 : nat,
    set_ape_from rayset i0 (set_ape_from rayset i0 ifcs)
    = set_ape_from rayset i0 ifcs.
Proof.
  induction ifcs as [|a rest IH]; intros i0; [reflexivity|].
  cbn [set_ape_from]. rewrite scan_rayset_eq.
  destruct (all_reach rayset i0) eqn:E; cbn [set_ape_from];
    rewrite scan_rayset_eq, E, IH; reflexivity.
Qed.

(** X1.  Setting the apertures a second time from the same boundary rays
    changes nothing. *)
Theorem X1_set_ape_idempotent
        (rayset : list (list Ray)) (ifcs : list Interface) :
  set_ape rayset (set_ape rayset ifcs) = set_ape rayset ifcs.
Proof. apply set_ape_from_idempotent. Qed.

Lemma all_reach_mono (rayset : list (list Ray)) (i j : nat) :
  i <= j -> all_reach rayset j = true -> all_reach rayset i = true.
Proof.
  rewrite !all_reach_spec. intros Hij H f r Hf Hr.
  specialize (H f r Hf Hr). lia.
Qed.

(** X2.  The interfaces [set_ape] updates form an initial part of the
    sequence: an interface at or beyond the length of some boundary ray keeps
    its aperture, and once one interface is left as it was so is every later
    one; the number of interfaces does not change. *)
Theorem X2_set_ape_updates_a_prefix
        (rayset : list (list Ray)) (ifcs : list Interface) (i j : nat) :
  length (set_ape rayset ifcs) = length ifcs
  /\ (forall f r, In f rayset -> In r f -> length r <= j ->
                  nth_error (set_ape rayset ifcs) j = nth_error ifcs j)
  /\ (i <= j -> all_reach rayset i = false ->
      nth_error (set_ape rayset ifcs) j = nth_error ifcs j).
Proof.
  assert (Hstay : all_reach rayset j = false ->
                  nth_error (set_ape rayset ifcs) j = nth_error ifcs j).
  { intros E. rewrite set_ape_nth, E. now destruct (nth_error ifcs j). }
  split; [apply set_ape_from_length|]. split.
  - intros f r Hf Hr Hlen. apply Hstay.
    destruct (all_reach rayset j) eqn:E; [|reflexivity].
    apply all_reach_spec with (f := f) (r := r) in E; [lia | exact Hf | exact Hr].
  - intros Hij Hi. apply Hstay.
    destruct (all_reach rayset j) eqn:E; [|reflexivity].
    rewrite (all_reach_mono rayset i j Hij E) in Hi. discriminate.
Qed.

Lemma scan_rayset_empty (rayset : list (list Ray)) (i : nat) :
  (forall f, In f rayset -> f = []) ->
  scan_rayset rayset i = (floor_ap, true).
Proof.
  intros Hempty. rewrite scan_rayset_eq.
  assert (Hh : heights_at rayset i = []).
  { unfold heights_at. induction rayset as [|f fs IH]; [reflexivity|].
    cbn [flat_map]. rewrite (Hempty f (or_introl eq_refl)). cbn.
    apply IH. intros g Hg. apply Hempty. now right. }
  assert (Ha : all_reach rayset i = true).
  { apply all_reach_spec. intros f r Hf Hr.
    rewrite (Hempty f Hf) in Hr. destruct Hr. }
  now rewrite Hh, Ha.
Qed.

(** X3.  With no boundary ray at all (no field, or fields without rays)
    nothing holds an update back: every interface gets the initial value
    -1.0e+10 of the running maximum as its clear aperture. *)
Theorem X3_set_ape_without_rays
        (rayset : list (list Ray)) (ifcs : list Interface) :
  (forall f, In f rayset -> f = []) ->
  set_ape rayset ifcs
  = map (fun ifc => set_max_aperture ifc (-1.0e+10)%float) ifcs.
Proof.
  intros Hempty. unfold set_ape. generalize 0.
  induction ifcs as [|a rest IH]; intros i0; [reflexivity|].
  cbn [set_ape_from map]. rewrite (scan_rayset_empty rayset i0 Hempty).
  now rewrite IH.
Qed.

Lemma SFleb_zero (h : spec_float) :
  SFnonneg h -> h <> S754_nan -> SFleb (S754_zero false) h = true.
Proof.
  destruct h as [s|s| |s m e]; cbn; intros Hs Hn; subst; congruence.
Qed.

Lemma radial_height_nonneg (seg : RaySeg) :
  is_nan (radial_height seg) = false ->
  (0 <=? radial_height seg)%float = true.
Proof.
  rewrite is_nan_spec, leb_spec. apply SFleb_zero.
  unfold radial_height. rewrite sqrt_spec, add_spec, !mul_spec.
  apply SFsqrt_nonneg, SFadd_nonneg; apply SFmul_self_nonneg.
Qed.

(** X4.  [set_ape] never stores a NaN: an interface is left as it was, or
    its new clear aperture is a number, namely the initial value -1.0e+10 or
    a non-negative radial height of one of the rays at that surface. *)
Theorem X4_set_ape_stores_a_number
        (rayset : list (list Ray)) (ifcs : list Interface) (i : nat)
        (ifc ifc' : Interface) :
  nth_error ifcs i = Some ifc ->
  nth_error (set_ape rayset ifcs) i = Some ifc' ->
  ifc' = ifc
  \/ (all_reach rayset i = true
      /\ is_nan (max_aperture ifc') = false
      /\ (max_aperture ifc' = (-1.0e+10)%float
          \/ ((0 <=? max_aperture ifc')%float = true
              /\ exists f r seg,
                  In f rayset /\ In r f /\ nth_error r i = Some seg
                  /\ max_aperture ifc' = radial_height seg))).
Proof.
  intros Hifc. rewrite set_ape_nth, Hifc. cbn [option_map].
  destruct (all_reach rayset i) eqn:E; intros [= <-]; [right | now left].
  destruct (run_max_spec (heights_at rayset i) floor_ap eq_refl)
    as (Hn & _ & _ & Hin & _).
  cbn [set_max_aperture max_aperture].
  set (m := run_max floor_ap (heights_at rayset i)) in *.
  split; [reflexivity|]. split; [exact Hn|].
  destruct Hin as [Hm | Hm]; [now left | right].
  apply heights_at_spec in Hm as (f & r & seg & Hf & Hr & Hseg & Hm).
  split.
  - rewrite Hm. apply radial_height_nonneg. now rewrite <- Hm.
  - now exists f, r, seg.
Qed.

Lemma SFcompare_eq_nonneg (a b : spec_float) :
  a <> S754_nan -> b <> S754_nan -> SFnonneg a -> SFnonneg b ->
  SFltb a b = false -> SFltb b a = false -> a = b.
Proof.
  unfold SFltb, SFcompare.
  destruct a as [sa|sa| |sa ma ea], b as [sb|sb| |sb mb eb]; cbn;
    intros Ha Hb Hsa Hsb H1 H2; subst;
    try congruence; try discriminate H1; try discriminate H2.
  revert H1 H2. cmp_cases; intros G1 G2;
    try discriminate G1; try discriminate G2; subst; try reflexivity; lia.
Qed.

Lemma radial_height_SFnonneg (seg : RaySeg) :
  SFnonneg (Prim2SF (radial_height seg)).
Proof.
  unfold radial_height. rewrite sqrt_spec, add_spec, !mul_spec.
  apply SFsqrt_nonneg, SFadd_nonneg; apply SFmul_self_nonneg.
Qed.

(** The running maximum over the heights at a surface depends only on which
    heights occur. *)
Lemma run_max_heights_unique (rayset rayset' : list (list Ray)) (i : nat) :
  (forall h, In h (heights_at rayset i) <-> In h (heights_at rayset' i)) ->
  run_max floor_ap (heights_at rayset i) = run_max floor_ap (heights_at rayset' i).
Proof.
  intros Hsame.
  destruct (run_max_spec (heights_at rayset i) floor_ap eq_refl)
    as (Hn & _ & Hdom & Hin & Heq).
  destruct (run_max_spec (heights_at rayset' i) floor_ap eq_refl)
    as (Hn' & _ & Hdom' & Hin' & Heq').
  set (m := run_max floor_ap (heights_at rayset i)) in *.
  set (m' := run_max floor_ap (heights_at rayset' i)) in *.
  assert (Habove : forall rs x, In x (heights_at rs i) -> is_nan x = false ->
                                (floor_ap <? x)%float = true).
  { intros rs x Hx Hnan. apply heights_at_spec in Hx as (f & r & seg & _ & _ & _ & ->).
    now apply radial_height_above_floor. }
  destruct Hin as [Hm | Hm], Hin' as [Hm' | Hm'].
  - congruence.
  - exfalso. apply Hsame in Hm'. pose proof (Heq Hm m' Hm') as Hc.
    rewrite (Habove rayset m' Hm' Hn') in Hc. discriminate.
  - exfalso. pose proof Hm as Hm2. apply Hsame in Hm2.
    pose proof (Heq' Hm' m Hm2) as Hc.
    rewrite (Habove rayset m Hm Hn) in Hc. discriminate.
  - apply Prim2SF_inj. apply SFcompare_eq_nonneg.
    + now apply is_nan_spec.
    + now apply is_nan_spec.
    + apply heights_at_spec in Hm as (f & r & seg & _ & _ & _ & ->).
      apply radial_height_SFnonneg.
    + apply heights_at_spec in Hm' as (f & r & seg & _ & _ & _ & ->).
      apply radial_height_SFnonneg.
    + rewrite <- ltb_spec. apply Hdom. now apply Hsame.
    + rewrite <- ltb_spec. apply Hdom'. now apply Hsame.
Qed.

(** X5.  The apertures [set_ape] sets depend only on which boundary rays
    there are, not on their order, on how they are grouped into fields or on
    repetitions: two ray sets with the same rays give the same interfaces. *)
Theorem X5_set_ape_ignores_ray_order
        (rayset rayset' : list (list Ray)) (ifcs : list Interface) :
  (forall r, In r (concat rayset) <-> In r (concat rayset')) ->
  set_ape rayset ifcs = set_ape rayset' ifcs.
Proof.
  intros Hsame.
  assert (Hrays : forall rs (r : Ray),
             In r (concat rs) <-> exists f, In f rs /\ In r f).
  { intros rs r. rewrite in_concat. split; intros (f & H1 & H2); now exists f. }
  assert (Hreach : forall i, all_reach rayset i = all_reach rayset' i).
  { intros i. apply eq_true_iff_eq. rewrite !all_reach_spec.
    split; intros H f r Hf Hr.
    - destruct (proj1 (Hrays rayset r)) as (g & Hg & Hrg).
      { apply Hsame, Hrays. now exists f. }
      now apply (H g r).
    - destruct (proj1 (Hrays rayset' r)) as (g & Hg & Hrg).
      { apply Hsame, Hrays. now exists f. }
      now apply (H g r). }
  assert (Hheights : forall i h,
             In h (heights_at rayset i) <-> In h (heights_at rayset' i)).
  { intros i h. rewrite !heights_at_spec.
    split; intros (f & r & seg & Hf & Hr & Hseg & Hh).
    - destruct (proj1 (Hrays rayset' r)) as (g & Hg & Hrg).
      { apply Hsame, Hrays. now exists f. }
      now exists g, r, seg.
    - destruct (proj1 (Hrays rayset r)) as (g & Hg & Hrg).
      { apply Hsame, Hrays. now exists f. }
      now exists g, r, seg. }
  unfold set_ape. generalize 0.
  induction ifcs as [|a rest IH]; intros i0; [reflexivity|].
  cbn [set_ape_from]. rewrite !scan_rayset_eq, Hreach.
  rewrite (run_max_heights_unique rayset rayset' i0 (Hheights i0)).
  now rewrite IH.
Qed.

(** ** calc_vignetted_ray *)

Lemma newton_calls_app (a b : list event) :
  newton_calls (a ++ b) = newton_calls a + newton_calls b.
Proof. unfold newton_calls. now rewrite filter_app, length_app. Qed.

Lemma objective_trace_counts (xy : axis) (evs : list event) :
  Forall (objective_trace xy) evs ->
  newton_calls evs = 0 /\ checked_traces evs = 0.
Proof.
  induction 1 as [|ev evs Hev _ [IH1 IH2]]; [now split|].
  destruct ev as [c chk|x0]; [|destruct Hev].
  destruct Hev as [-> _]. now split.
Qed.

Section SearchMore.

Context {St : Type}.
Variable trace_base : pupil -> bool -> St -> TraceOutcome * St.
Variable newton : float -> float -> solver.
Variable ifcs : list Interface.
Variable stop_surface : option nat.

Local Abbreviation step := (search_step trace_base newton ifcs stop_surface).
Local Abbreviation loop := (while_search trace_base newton ifcs stop_surface).
Local Abbreviation iterate := (iterate_pupil_ray trace_base newton).
Local Abbreviation search := (vignetted_search trace_base newton ifcs stop_surface).
Local Abbreviation calc := (calc_vignetted_ray trace_base newton ifcs stop_surface).
Local Abbreviation aim indx xy c n pkg :=
  (bind (index ifcs indx%nat)
        (fun ifc => bind (iterate (Some indx%nat) xy c (surface_od ifc))
                         (fun rel => ret (mkSearch rel true (Some indx%nat) n pkg)))).

(** The world after the checked trace of a pass. *)
Definition traced_world (c : pupil) (w : world St) : world St :=
  mkWorld (snd (trace_base c true (tracer w))) (calls w ++ [EvTrace c true]).

(** While the root finder runs, only the objective's traces are made. *)
Lemma run_solver_traces (i : nat) (xy : axis) (t : float) (s : solver) :
  forall w : world St,
  exists evs,
    calls (snd (run_solver s (r_pupil_coordinate trace_base i xy t) w))
      = calls w ++ evs
    /\ Forall (objective_trace xy) evs.
Proof.
  induction s as [x results | x k IH]; intros w; cbn [run_solver].
  - exists []. cbn. now rewrite app_nil_r.
  - unfold bind.
    pose proof (r_pupil_coordinate_world trace_base i xy t x w) as Hw.
    assert (Hev : objective_trace xy (EvTrace (setc (0, 0)%float xy x) false))
      by (split; [reflexivity | now rewrite setc_other; destruct xy]).
    destruct (r_pupil_coordinate trace_base i xy t x w) as [[q|e] w1];
      cbn [snd] in Hw; subst w1.
    + destruct (IH q (mkWorld (snd (trace_base (setc (0, 0)%float xy x) false (tracer w)))
                              (calls w ++ [EvTrace (setc (0, 0)%float xy x) false])))
        as (evs & Hc & Hf).
      exists (EvTrace (setc (0, 0)%float xy x) false :: evs). split.
      * rewrite Hc. cbn [calls]. now rewrite <- app_assoc.
      * now constructor.
    + exists [EvTrace (setc (0, 0)%float xy x) false]. split; [reflexivity|].
      now constructor.
Qed.

(** A pupil-ray iteration with a target calls the root finder once, from
    the starting point it was given, and then only traces for the objective. *)
Lemma iterate_target_calls (i : nat) (xy : axis) (start_r0 r_target : float)
      (w : world St) :
  exists evs,
    calls (snd (iterate (Some i) xy start_r0 r_target w))
      = calls w ++ EvNewton start_r0 :: evs
    /\ Forall (objective_trace xy) evs.
Proof.
  rewrite iterate_pupil_ray_world, call_newton_eq.
  destruct (run_solver_traces i xy r_target (newton start_r0 tol)
              (mkWorld (tracer w) (calls w ++ [EvNewton start_r0])))
    as (evs & Hc & Hf).
  exists evs. split; [|exact Hf]. rewrite Hc. cbn [calls].
  now rewrite <- app_assoc.
Qed.

Lemma aim_outcome (indx : nat) (xy : axis) (c : float) (n : nat)
      (pkg : option ray_result) (w : world St) :
  (nth_error ifcs indx = None /\ aim indx xy c n pkg w = (Exc IndexError, w))
  \/ (exists ifc evs,
         nth_error ifcs indx = Some ifc
         /\ calls (snd (aim indx xy c n pkg w)) = calls w ++ EvNewton c :: evs
         /\ Forall (objective_trace xy) evs
         /\ forall st' w',
             aim indx xy c n pkg w = (Val st', w') ->
             st' = mkSearch (rel_p1 st') true (Some indx) n pkg
             /\ getc (rel_p1 st') (other xy) = 0%float).
Proof.
  rewrite aim_eq. destruct (nth_error ifcs indx) as [ifc|] eqn:E; [right | now left].
  destruct (iterate_target_calls indx xy c (surface_od ifc) w) as (evs & Hc & Hf).
  exists ifc, evs. split; [reflexivity|].
  pose proof (iterate_pupil_ray_value trace_base newton (Some indx) xy c
                (surface_od ifc) w) as Hv.
  destruct (iterate (Some indx) xy c (surface_od ifc) w) as [[rel|e] w1];
    cbn [fst snd] in *; repeat split; try assumption; try discriminate.
  - now injection H as <- <-.
  - injection H as <- <-. now apply Hv.
Qed.

(** The four ways a pass can go. *)
Lemma step_cases (xy : axis) (st : search_state) (w : world St) :
  let c := rel_p1 st in
  let o := fst (trace_base c true (tracer w)) in
  let n := S (iter_count st) in
  let pkg := Some (result_of o) in
  (step xy st w = (Val (mkSearch c false (last_indx st) n pkg), traced_world c w)
   /\ (match o with
       | Failed _ indx _ => same_indx indx (last_indx st) = true
       | Traced _ => last_indx st <> None \/ stop_surface = None
       end))
  \/ (exists indx,
         step xy st w = aim indx xy (getc c xy) n pkg (traced_world c w)
         /\ (match o with
             | Failed _ surf _ => surf = indx /\ same_indx indx (last_indx st) = false
             | Traced _ => last_indx st = None /\ stop_surface = Some indx
             end)).
Proof.
  intros c o n pkg. subst c o n pkg. unfold search_step, traced_world.
  rewrite trace_call_eq.
  destruct (fst (trace_base (rel_p1 st) true (tracer w))) as [traced|k s r];
    cbn [result_of].
  - destruct (last_indx st) as [j|] eqn:El.
    + left. split; [reflexivity | left; discriminate].
    + destruct stop_surface as [stop_indx|] eqn:Es.
      * right. exists stop_indx. now split.
      * left. split; [reflexivity | now right].
  - destruct (same_indx s (last_indx st)) eqn:Es.
    + left. now split.
    + right. exists s. now split.
Qed.

(** The calls of one pass: its checked trace, then at most one call of the
    root finder with the traces of its objective. *)
Lemma step_calls (xy : axis) (st : search_state) (w : world St) :
  exists evs,
    calls (snd (step xy st w)) = calls w ++ EvTrace (rel_p1 st) true :: evs
    /\ checked_traces evs = 0 /\ newton_calls evs <= 1.
Proof.
  destruct (step_cases xy st w) as [[H _] | (indx & H & _)]; rewrite H.
  - exists []. cbn. repeat split; lia.
  - destruct (aim_outcome indx xy (getc (rel_p1 st) xy) (S (iter_count st))
                (Some (result_of (fst (trace_base (rel_p1 st) true (tracer w)))))
                (traced_world (rel_p1 st) w))
      as [[_ Ha] | (ifc & evs & _ & Hc & Hf & _)].
    + rewrite Ha. exists []. cbn. repeat split; lia.
    + rewrite Hc. cbn [traced_world calls]. rewrite <- app_assoc.
      exists (EvNewton (getc (rel_p1 st) xy) :: evs).
      destruct (objective_trace_counts xy evs Hf) as [Hn Hk].
      split; [reflexivity|]. split.
      * exact Hk.
      * change (EvNewton (getc (rel_p1 st) xy) :: evs)
          with ([EvNewton (getc (rel_p1 st) xy)] ++ evs).
        rewrite newton_calls_app, Hn. cbn. lia.
Qed.

Lemma loop_newton_calls (xy : axis) (max : nat) :
  forall (fuel : nat) (st : search_state) (w : world St),
  exists evs,
    calls (snd (loop xy max fuel st w)) = calls w ++ evs
    /\ newton_calls evs <= checked_traces evs
    /\ checked_traces evs <= max - iter_count st.
Proof.
  induction fuel as [|fuel IH]; intros st w;
    destruct (still_iterating st && (iter_count st <? max)) eqn:G;
    try (rewrite loop_guard_false by exact G; exists []; cbn;
         rewrite app_nil_r; repeat split; lia).
  - exists []. cbn [while_search]. rewrite G. cbn. rewrite app_nil_r.
    repeat split; lia.
  - rewrite loop_guard_true by exact G.
    apply andb_prop in G as [_ G]. apply Nat.ltb_lt in G.
    destruct (step_calls xy st w) as (evs1 & Hc1 & Hk1 & Hn1).
    assert (Hhead : forall l,
               newton_calls (EvTrace (rel_p1 st) true :: evs1 ++ l)
               = newton_calls evs1 + newton_calls l
               /\ checked_traces (EvTrace (rel_p1 st) true :: evs1 ++ l)
                  = S (checked_traces l)).
    { intros l.
      change (EvTrace (rel_p1 st) true :: evs1 ++ l)
        with ([EvTrace (rel_p1 st) true] ++ evs1 ++ l).
      rewrite !newton_calls_app, !checked_traces_app, Hk1. now split. }
    destruct (step xy st w) as [[st1|e] w1] eqn:E; cbn [snd] in Hc1.
    + apply search_step_value in E as [E _].
      destruct (IH st1 w1) as (evs2 & Hc2 & Hle & Hbound).
      exists (EvTrace (rel_p1 st) true :: evs1 ++ evs2).
      destruct (Hhead evs2) as [-> ->]. repeat split.
      * rewrite Hc2, Hc1, <- app_assoc. reflexivity.
      * lia.
      * lia.
    + exists (EvTrace (rel_p1 st) true :: evs1 ++ []).
      destruct (Hhead []) as [-> ->]. cbn [snd]. rewrite app_nil_r.
      repeat split; [exact Hc1 | cbn; lia | cbn; lia].
Qed.

Lemma calc_world (xy : axis) (start_dir : pupil) (max : nat) (w : world St) :
  snd (calc xy start_dir max w) = snd (search xy start_dir max w).
Proof.
  rewrite calc_eq.
  destruct (search xy start_dir max w) as [[[st|]|e] w']; try reflexivity.
  destruct (ray_pkg st); reflexivity.
Qed.

Lemma calc_calls_bounded
      (xy : axis) (start_dir : pupil) (max_iter_count : nat) (w : world St) :
  exists evs,
    calls (snd (calc xy start_dir max_iter_count w)) = calls w ++ evs
    /\ newton_calls evs <= checked_traces evs
    /\ checked_traces evs <= max_iter_count.
Proof.
  rewrite calc_world.
  destruct (loop_newton_calls xy max_iter_count max_iter_count
              (init_search start_dir) w) as (evs & Hc & Hn & Hk).
  exists evs. cbn [init_search iter_count] in Hk. repeat split; [exact Hc | lia | lia].
Qed.

(** X6.  A call of [calc_vignetted_ray] calls the root finder at most once
    per pass of its loop: among the calls it makes, the root-finder calls
    are no more than the checked traces, which are no more than
    [max_iter_count]. *)
Theorem X6_root_finder_calls_bounded
        (xy : axis) (start_dir : pupil) (max_iter_count : nat) (w : world St) :
  exists evs,
    calls (snd (calc xy start_dir max_iter_count w)) = calls w ++ evs
    /\ newton_calls evs <= checked_traces evs
    /\ checked_traces evs <= max_iter_count.
Proof.
  rewrite calc_world.
  destruct (loop_newton_calls xy max_iter_count max_iter_count
              (init_search start_dir) w) as (evs & Hc & Hn & Hk).
  exists evs. cbn [init_search iter_count] in Hk.
  split; [exact Hc|]. split; lia.
Qed.


(** A property of the loop variables that every pass keeps holds when the
    loop is left. *)
Lemma loop_invariant (xy : axis) (max : nat) (P : search_state -> Prop) :
  (forall st st' w w', P st -> step xy st w = (Val st', w') -> P st') ->
  forall (fuel : nat) (st st' : search_state) (w : world St),
    P st -> fst (loop xy max fuel st w) = Val (Some st') -> P st'.
Proof.
  intros Hstep. induction fuel as [|fuel IH]; intros st st' w HP;
    destruct (still_iterating st && (iter_count st <? max)) eqn:G;
    try (rewrite loop_guard_false by exact G; now intros [= <-]).
  - cbn [while_search]. rewrite G. discriminate.
  - rewrite loop_guard_true by exact G.
    destruct (step xy st w) as [[st1|e] w1] eqn:E; [|discriminate].
    apply IH. eapply Hstep; eassumption.
Qed.

(** The state the loop is left with was produced by its last pass. *)
Lemma loop_last_step (xy : axis) (max : nat) :
  forall (fuel : nat) (st st' : search_state) (w : world St),
    fst (loop xy max fuel st w) = Val (Some st') ->
    (st' = st /\ snd (loop xy max fuel st w) = w)
    \/ exists st0 w0, step xy st0 w0 = (Val st', snd (loop xy max fuel st w)).
Proof.
  induction fuel as [|fuel IH]; intros st st' w;
    destruct (still_iterating st && (iter_count st <? max)) eqn:G;
    try (rewrite loop_guard_false by exact G; intros [= <-]; now left).
  - cbn [while_search]. rewrite G. discriminate.
  - rewrite loop_guard_true by exact G.
    destruct (step xy st w) as [[st1|e] w1] eqn:E; [|discriminate].
    intros H. destruct (IH st1 st' w1 H) as [[-> Hw] | Hlast]; [|now right].
    right. exists st, w. now rewrite Hw.
Qed.

(** What a pass leaves when it goes on iterating, and when it stops. *)
Lemma step_value (xy : axis) (st st' : search_state) (w w' : world St) :
  step xy st w = (Val st', w') ->
  (still_iterating st' = false
   /\ rel_p1 st' = rel_p1 st /\ last_indx st' = last_indx st
   /\ w' = traced_world (rel_p1 st) w
   /\ ray_pkg st'
      = Some (result_of (fst (trace_base (rel_p1 st) true (tracer w))))
   /\ (last_indx st = None -> stop_surface = None
       /\ exists traced,
           fst (trace_base (rel_p1 st) true (tracer w)) = Traced traced))
  \/ (still_iterating st' = true
      /\ getc (rel_p1 st') (other xy) = 0%float
      /\ exists indx, last_indx st' = Some indx /\ indx < length ifcs).
Proof.
  destruct (step_cases xy st w) as [[H Ho] | (indx & H & _)]; rewrite H.
  - intros [= <- <-]. left. cbn [still_iterating rel_p1 last_indx ray_pkg].
    do 5 (split; [reflexivity|]). intros Hl. rewrite Hl in Ho.
    destruct (fst (trace_base (rel_p1 st) true (tracer w))) as [traced|k s r].
    + destruct Ho as [Ho|Ho]; [congruence|]. split; [exact Ho | now exists traced].
    + discriminate Ho.
  - intros Ha. right.
    destruct (aim_outcome indx xy (getc (rel_p1 st) xy) (S (iter_count st))
                (Some (result_of (fst (trace_base (rel_p1 st) true (tracer w)))))
                (traced_world (rel_p1 st) w))
      as [[_ He] | (ifc & evs & Hifc & _ & _ & Hv)].
    + rewrite He in Ha. discriminate.
    + destruct (Hv st' w' Ha) as [Hst Hz]. rewrite Hst.
      cbn [still_iterating rel_p1 last_indx]. split; [reflexivity|].
      split; [exact Hz|]. exists indx. split; [reflexivity|].
      apply nth_error_Some. congruence.
Qed.

(** X7.  When the search was not cut short by the iteration bound (the loop
    is left with [still_iterating] false), the ray package that
    [calc_vignetted_ray] returns is the outcome of a trace, made last of all
    calls, from the very coordinate the vignetting factor is computed from. *)
Theorem X7_converged_ray_is_traced_from_final_coordinate
        (xy : axis) (start_dir : pupil) (max_iter_count : nat) (w w' : world St)
        (st : search_state) :
  search xy start_dir max_iter_count w = (Val (Some st), w') ->
  still_iterating st = false ->
  exists (s : St) (evs : list event) (pkg : ray_result),
    pkg = result_of (fst (trace_base (rel_p1 st) true s))
    /\ tracer w' = snd (trace_base (rel_p1 st) true s)
    /\ calls w' = evs ++ [EvTrace (rel_p1 st) true]
    /\ calc xy start_dir max_iter_count w
       = (Val (Some (vig_factor xy start_dir (rel_p1 st), last_indx st, pkg)), w').
Proof.
  intros Hsearch Hstop.
  pose proof (loop_last_step xy max_iter_count max_iter_count
                (init_search start_dir) st w) as Hlast.
  fold (search xy start_dir max_iter_count w) in Hlast.
  rewrite Hsearch in Hlast. cbn [fst snd] in Hlast.
  destruct (Hlast eq_refl) as [[-> _] | (st0 & w0 & Hstep)];
    [discriminate Hstop|].
  apply step_value in Hstep as [(_ & Hrel & _ & Hw & Hpkg & _) | (Hgo & _)];
    [|congruence].
  exists (tracer w0), (calls w0),
    (result_of (fst (trace_base (rel_p1 st) true (tracer w0)))).
  split; [reflexivity|].
  split; [rewrite Hw, Hrel; reflexivity|].
  split; [rewrite Hw, Hrel; reflexivity|].
  rewrite calc_eq, Hsearch, Hpkg, Hrel. reflexivity.
Qed.

(** The limiting index, once set, indexes an interface, and the coordinate
    then lies on the search axis; before, the coordinate is the starting
    direction. *)
Definition search_shape (xy : axis) (start_dir : pupil) (st : search_state)
  : Prop :=
  match last_indx st with
  | Some indx => indx < length ifcs /\ getc (rel_p1 st) (other xy) = 0%float
  | None => rel_p1 st = start_dir
  end.

Lemma step_keeps_shape (xy : axis) (start_dir : pupil)
      (st st' : search_state) (w w' : world St) :
  search_shape xy start_dir st -> step xy st w = (Val st', w') ->
  search_shape xy start_dir st'.
Proof.
  unfold search_shape. intros HP Hstep.
  apply step_value in Hstep
    as [(_ & Hrel & Hl & _) | (_ & Hz & indx & Hl & Hlt)]; rewrite Hl.
  - now rewrite Hrel.
  - now split.
Qed.

(** X8.  Whenever the search loop ends: a limiting index that is reported
    is the index of an existing interface and the coordinate reached then has
    0 on the inactive axis (whatever the starting direction had there); when
    no limiting index is reported the coordinate is still the starting
    direction. *)
Theorem X8_limiting_index_is_an_interface
        (xy : axis) (start_dir : pupil) (max_iter_count : nat) (w w' : world St)
        (st : search_state) :
  search xy start_dir max_iter_count w = (Val (Some st), w') ->
  match last_indx st with
  | Some indx => indx < length ifcs /\ getc (rel_p1 st) (other xy) = 0%float
  | None => rel_p1 st = start_dir
  end.
Proof.
  intros Hsearch.
  apply (loop_invariant xy max_iter_count (search_shape xy start_dir)
           (step_keeps_shape xy start_dir)
           max_iter_count (init_search start_dir) st w).
  - reflexivity.
  - fold (search xy start_dir max_iter_count w). now rewrite Hsearch.
Qed.

Lemma step_keeps_limit (xy : axis) (st st' : search_state) (w w' : world St) :
  last_indx st <> None -> step xy st w = (Val st', w') -> last_indx st' <> None.
Proof.
  intros HP Hstep.
  apply step_value in Hstep as [(_ & _ & Hl & _) | (_ & _ & indx & Hl & _)];
    rewrite Hl; [exact HP | discriminate].
Qed.

(** X9.  [calc_vignetted_ray] reports no limiting index only in one case:
    the stop surface is undefined and the first trace, from the starting
    direction, succeeds.  That trace is then the only call made, and its
    ray package is the one returned. *)
Theorem X9_no_limiting_index_means_clear_floating_stop
        (xy : axis) (start_dir : pupil) (max_iter_count : nat) (w w' : world St)
        (vig : float) (pkg : ray_result) :
  calc xy start_dir max_iter_count w = (Val (Some (vig, None, pkg)), w') ->
  stop_surface = None
  /\ (exists traced,
         fst (trace_base start_dir true (tracer w)) = Traced traced
         /\ pkg = FullPkg traced)
  /\ w' = traced_world start_dir w
  /\ vig = vig_factor xy start_dir start_dir.
Proof.
  intros Hcalc. apply calc_value in Hcalc as (st & Hsearch & -> & Hl & Hpkg).
  unfold vignetted_search in Hsearch.
  destruct (still_iterating (init_search start_dir)
            && (iter_count (init_search start_dir) <? max_iter_count)) eqn:G.
  - destruct max_iter_count as [|m]; [discriminate G|].
    rewrite loop_guard_true in Hsearch by exact G.
    destruct (step xy (init_search start_dir) w) as [[st1|e] w1] eqn:E;
      [|discriminate].
    pose proof E as E1.
    apply step_value in E1
      as [(Hs & Hrel & Hl1 & Hw & Hp & Hfirst) | (_ & _ & indx & Hl1 & _)].
    + rewrite loop_guard_false in Hsearch by (now rewrite Hs).
      injection Hsearch as <- <-. cbn [init_search rel_p1] in *.
      destruct (Hfirst eq_refl) as (Hstop & traced & Htr).
      rewrite Hrel. split; [exact Hstop|]. split.
      * exists traced. split; [exact Htr|]. rewrite Hp, Htr in Hpkg.
        now injection Hpkg as <-.
      * now split.
    + exfalso.
      assert (Hsome : last_indx st <> None).
      { apply (loop_invariant xy (S m) (fun s => last_indx s <> None)
                 (step_keeps_limit xy) m st1 st w1).
        - rewrite Hl1. discriminate.
        - now rewrite Hsearch. }
      congruence.
  - rewrite loop_guard_false in Hsearch by exact G.
    injection Hsearch as <- <-. discriminate Hpkg.
Qed.

(** X10.  An index beyond the interfaces raises [IndexError] at once: when
    the first trace fails at a surface index that is not below the number of
    interfaces, or succeeds while the stop surface index is not below it,
    [calc_vignetted_ray] ends with that exception after its one trace,
    without calling the root finder. *)
Theorem X10_index_beyond_interfaces_raises
        (xy : axis) (start_dir : pupil) (max_iter_count : nat) (w : world St)
        (indx : nat) :
  1 <= max_iter_count ->
  length ifcs <= indx ->
  match fst (trace_base start_dir true (tracer w)) with
  | Failed _ surf _ => surf = indx
  | Traced _ => stop_surface = Some indx
  end ->
  calc xy start_dir max_iter_count w
  = (Exc IndexError, traced_world start_dir w).
Proof.
  intros Hmax Hlen Hfirst.
  assert (Hsearch : search xy start_dir max_iter_count w
                    = (Exc IndexError, traced_world start_dir w)).
  { unfold vignetted_search. destruct max_iter_count as [|m]; [lia|].
    rewrite loop_guard_true by reflexivity.
    assert (Hstep : step xy (init_search start_dir) w
                    = (Exc IndexError, traced_world start_dir w)).
    { destruct (step_cases xy (init_search start_dir) w)
        as [[_ Ho] | (j & H & Ho)]; cbn [init_search rel_p1 last_indx] in *.
      - destruct (fst (trace_base start_dir true (tracer w))).
        + destruct Ho as [Ho|Ho]; congruence.
        + discriminate Ho.
      - assert (Hj : j = indx).
        { destruct (fst (trace_base start_dir true (tracer w)));
            destruct Ho; congruence. }
        subst j. rewrite H, aim_eq.
        assert (Hnone : nth_error ifcs indx = None) by now apply nth_error_None.
        now rewrite Hnone. }
    now rewrite Hstep. }
  now rewrite calc_eq, Hsearch.
Qed.

(** X11.  When no checked trace ever fails, the search is over after two
    passes at most: the limiting index it ends with is the stop surface (or
    none for a floating stop), the ray package is that of a complete ray,
    and with room for two passes the search has stopped by itself. *)
Theorem X11_unobstructed_search_stops_at_the_stop
        (xy : axis) (start_dir : pupil) (max_iter_count : nat) (w w' : world St)
        (st : search_state) :
  (forall c s, exists traced, fst (trace_base c true s) = Traced traced) ->
  search xy start_dir max_iter_count w = (Val (Some st), w') ->
  1 <= max_iter_count ->
  last_indx st = stop_surface
  /\ iter_count st <= 2
  /\ (exists traced, ray_pkg st = Some (FullPkg traced))
  /\ (2 <= max_iter_count -> still_iterating st = false).
Proof.
  intros Hok Hsearch Hmax.
  assert (Hpass : forall s0 w0 s1 w1,
             step xy s0 w0 = (Val s1, w1) ->
             iter_count s1 = S (iter_count s0)
             /\ (exists traced, ray_pkg s1 = Some (FullPkg traced))
             /\ ((still_iterating s1 = false /\ last_indx s1 = last_indx s0
                  /\ (last_indx s0 = None -> stop_surface = None))
                 \/ (still_iterating s1 = true /\ last_indx s0 = None
                     /\ last_indx s1 = stop_surface /\ stop_surface <> None))).
  { intros s0 w0 s1 w1 Hstep.
    destruct (search_step_value _ _ _ _ _ _ _ _ _ Hstep) as [Hn _].
    split; [exact Hn|].
    destruct (Hok (rel_p1 s0) (tracer w0)) as (traced & Htr).
    destruct (step_cases xy s0 w0) as [[H Ho] | (j & H & Ho)];
      rewrite Htr in *; cbn [result_of] in *; rewrite H in Hstep.
    - injection Hstep as <- <-. cbn [ray_pkg still_iterating last_indx].
      split; [now exists traced|]. left. repeat split.
      intros Hl. destruct Ho as [Ho|Ho]; congruence.
    - destruct Ho as [Hl Hs].
      destruct (aim_outcome j xy (getc (rel_p1 s0) xy) (S (iter_count s0))
                  (Some (FullPkg traced)) (traced_world (rel_p1 s0) w0))
        as [[_ He] | (ifc & evs & _ & _ & _ & Hv)]; [rewrite He in Hstep; discriminate|].
      destruct (Hv s1 w1 Hstep) as [Hs1 _]. rewrite Hs1.
      cbn [ray_pkg still_iterating last_indx].
      split; [now exists traced|]. right.
      split; [reflexivity|]. split; [exact Hl|]. split; [now rewrite Hs|].
      rewrite Hs. discriminate. }
  unfold vignetted_search in Hsearch.
  destruct max_iter_count as [|m]; [lia|].
  rewrite loop_guard_true in Hsearch by reflexivity.
  destruct (step xy (init_search start_dir) w) as [[st1|e] w1] eqn:E1;
    [|discriminate].
  destruct (Hpass _ _ _ _ E1) as (Hn1 & Hp1 & Hcase1).
  cbn [init_search iter_count last_indx] in Hn1, Hcase1.
  destruct Hcase1 as [(Hs1 & Hl1 & Hstop) | (Hs1 & _ & Hl1 & Hdef)].
  - rewrite loop_guard_false in Hsearch by (now rewrite Hs1).
    injection Hsearch as <- <-.
    rewrite Hl1, (Hstop eq_refl), Hn1. repeat split; auto.
  - destruct m as [|m].
    + rewrite loop_guard_false in Hsearch
        by (rewrite Hs1, Hn1; reflexivity).
      injection Hsearch as <- <-. rewrite Hn1. repeat split; auto. lia.
    + rewrite loop_guard_true in Hsearch by (rewrite Hs1, Hn1; reflexivity).
      destruct (step xy st1 w1) as [[st2|e] w2] eqn:E2; [|discriminate].
      destruct (Hpass _ _ _ _ E2) as (Hn2 & Hp2 & Hcase2).
      destruct Hcase2 as [(Hs2 & Hl2 & _) | (_ & Hnone & _)].
      * rewrite loop_guard_false in Hsearch by (now rewrite Hs2).
        injection Hsearch as <- <-.
        rewrite Hl2, Hl1, Hn2, Hn1. repeat split; auto.
      * exfalso. apply Hdef. now rewrite <- Hl1.
Qed.

End SearchMore.

(** ** calc_vignetting_for_field and set_vig *)

Lemma calc_never_out_of_fuel
      {St : Type} (trace_base : pupil -> bool -> St -> TraceOutcome * St)
      (newton : float -> float -> solver) (ifcs : list Interface)
      (stop_surface : option nat) (xy : axis) (start_dir : pupil) (max : nat)
      (w : world St) :
  fst (calc_vignetted_ray trace_base newton ifcs stop_surface xy start_dir max w)
  <> Val None.
Proof.
  pose proof (loop_total trace_base newton ifcs stop_surface xy max max
                (init_search start_dir) w) as Htot.
  rewrite calc_eq. fold (vignetted_search trace_base newton ifcs stop_surface
                           xy start_dir max w) in Htot.
  destruct (vignetted_search trace_base newton ifcs stop_surface xy start_dir max w)
    as [[[st|]|e] w']; cbn [fst] in *.
  - destruct (ray_pkg st); discriminate.
  - exfalso. apply Htot; [cbn; lia | reflexivity].
  - discriminate.
Qed.

(** A clear first trace under a floating stop ends the search at once. *)
Lemma calc_floating_clear
      {St : Type} (trace_base : pupil -> bool -> St -> TraceOutcome * St)
      (newton : float -> float -> solver) (ifcs : list Interface)
      (xy : axis) (start_dir : pupil) (max : nat) (w : world St) (pkg : RayPkg) :
  1 <= max ->
  finite_nonzero (getc start_dir xy) = true ->
  fst (trace_base start_dir true (tracer w)) = Traced pkg ->
  calc_vignetted_ray trace_base newton ifcs None xy start_dir max w
  = (Val (Some (0%float, None, FullPkg pkg)),
     mkWorld (snd (trace_base start_dir true (tracer w)))
             (calls w ++ [EvTrace start_dir true])).
Proof.
  intros Hmax Hfin Htr. rewrite calc_eq. unfold vignetted_search.
  destruct max as [|m]; [lia|].
  rewrite loop_guard_true by reflexivity.
  unfold search_step. rewrite trace_call_eq.
  cbn [init_search last_indx rel_p1 iter_count]. rewrite Htr.
  rewrite loop_guard_false by reflexivity.
  cbn [ray_pkg rel_p1 last_indx]. unfold vig_factor.
  rewrite (div_self _ Hfin). reflexivity.
Qed.

Lemma replace_at_length {A : Type} (l : list A) (i : nat) (v : A) :
  i < length l -> length (replace_at l i v) = length l.
Proof.
  intros Hi. unfold replace_at.
  rewrite length_app, length_firstn. cbn [length]. rewrite length_skipn. lia.
Qed.

Lemma replace_at_map {A B : Type} (g : A -> B) (l : list A) (i : nat) (a v : A) :
  nth_error l i = Some a -> g v = g a ->
  map g (replace_at l i v) = map g l.
Proof.
  intros Hnth Hg. unfold replace_at.
  rewrite <- (firstn_skipn i l) at 3.
  rewrite !map_app. f_equal.
  assert (Hskip : skipn i l = a :: skipn (S i) l).
  { clear Hg. revert i Hnth. induction l as [|x l IH]; intros [|i] H;
      try discriminate.
    - now injection H as ->.
    - cbn [skipn]. now apply IH. }
  rewrite Hskip. cbn [map]. now rewrite Hg.
Qed.

Lemma replace_at_skipn {A : Type} (l : list A) (i : nat) (v : A) :
  i < length l -> skipn (S i) (replace_at l i v) = skipn (S i) l.
Proof.
  intros Hi. unfold replace_at.
  assert (Hlen : length (firstn i l) = i) by (rewrite length_firstn; lia).
  rewrite skipn_app, Hlen.
  replace (S i - i) with 1 by lia.
  rewrite skipn_all2 by lia. reflexivity.
Qed.

Section VignettingFacts.

Context {St : Type}.
Variable trace_field : Field -> pupil -> bool -> St -> TraceOutcome * St.
Variable newton : float -> float -> solver.
Variable ifcs : list Interface.
Variable stop_surface : option nat.
Variable pupil_rays : list pupil.

Local Abbreviation vloop := (vig_loop trace_field newton ifcs stop_surface).
Local Abbreviation for_field :=
  (calc_vignetting_for_field trace_field newton ifcs stop_surface pupil_rays).
Local Abbreviation vig_from :=
  (set_vig_from trace_field newton ifcs stop_surface pupil_rays).

(** One pass of the loop over the four pupil directions. *)
Lemma vig_loop_pass (fld : Field) (ps : list pupil) (n i : nat)
      (vf : list float) (w : world St) :
  vloop fld ps (S n) i vf w =
    match nth_error ps i with
    | None => (Exc IndexError, w)
    | Some start =>
        match calc_vignetted_ray (trace_field fld) newton ifcs stop_surface
                                 (axis_of i) start default_max_iter_count w with
        | (Val (Some (vig, _, _)), w') =>
            if i <? length vf
            then vloop fld ps n (S i) (replace_at vf i vig) w'
            else (Exc IndexError, w')
        | (Val None, w') => (Val None, w')
        | (Exc e, w') => (Exc e, w')
        end
    end.
Proof.
  cbn [vig_loop]. unfold bind at 1. unfold index.
  destruct (nth_error ps i) as [start|]; [|reflexivity].
  cbn [ret]. unfold bind at 1.
  destruct (calc_vignetted_ray _ _ _ _ _ start _ w) as [[[[[vig l] p']|]|e] w'];
    try reflexivity.
  unfold bind, set_item. destruct (i <? length vf); reflexivity.
Qed.

Lemma vig_loop_facts (fld : Field) (ps : list pupil) :
  forall (n i : nat) (vf : list float) (w : world St),
    fst (vloop fld ps n i vf w) <> Val None
    /\ (forall vf', fst (vloop fld ps n i vf w) = Val (Some vf') ->
                    length vf' = length vf /\ (n <> 0 -> i + n <= length ps))
    /\ exists evs,
        calls (snd (vloop fld ps n i vf w)) = calls w ++ evs
        /\ newton_calls evs <= checked_traces evs
        /\ checked_traces evs <= n * default_max_iter_count.
Proof.
  induction n as [|n IH]; intros i vf w.
  - cbn [vig_loop ret fst snd]. split; [discriminate|]. split.
    + intros vf' [= <-]. split; [reflexivity | congruence].
    + exists []. rewrite app_nil_r. cbn. repeat split; lia.
  - rewrite vig_loop_pass.
    destruct (nth_error ps i) as [start|] eqn:Ei.
    2:{ cbn [fst snd]. split; [discriminate|]. split; [discriminate|].
        exists []. rewrite app_nil_r. cbn. repeat split; lia. }
    pose proof (calc_never_out_of_fuel (trace_field fld) newton ifcs stop_surface
                  (axis_of i) start default_max_iter_count w) as Hfuel.
    destruct (calc_calls_bounded (trace_field fld) newton ifcs
                stop_surface (axis_of i) start default_max_iter_count w)
      as (evs1 & Hc1 & Hn1 & Hk1).
    assert (Hi : i < length ps) by (apply nth_error_Some; congruence).
    destruct (calc_vignetted_ray _ _ _ _ _ start _ w) as [[[[[vig l] p']|]|e] w'];
      cbn [fst snd] in *.
    + destruct (Nat.ltb_spec i (length vf)) as [Hlt|Hge].
      * destruct (IH (S i) (replace_at vf i vig) w') as (H1 & H2 & evs2 & Hc2 & Hn2 & Hk2).
        split; [exact H1|]. split.
        -- intros vf' Hv. destruct (H2 vf' Hv) as [Hl Hb].
           rewrite replace_at_length in Hl by exact Hlt. split; [exact Hl|].
           intros _. destruct n as [|n]; [lia|].
           assert (S i + S n <= length ps) by (apply Hb; discriminate). lia.
        -- exists (evs1 ++ evs2). rewrite Hc2, Hc1, <- app_assoc.
           rewrite newton_calls_app, checked_traces_app.
           repeat split; cbn [Nat.mul]; lia.
      * split; [discriminate|]. split; [discriminate|].
        exists evs1. repeat split; [exact Hc1 | lia | cbn [Nat.mul]; lia].
    + contradiction.
    + split; [discriminate|]. split; [discriminate|].
      exists evs1. repeat split; [exact Hc1 | lia | cbn [Nat.mul]; lia].
Qed.

Lemma for_field_eq (fld : Field) (w : world St) :
  for_field fld w =
    match vloop fld (tl pupil_rays) 4 0 [0; 0; 0; 0]%float w with
    | (Val (Some vf), w') =>
        match vf with
        | v0 :: v1 :: v2 :: v3 :: _ =>
            (Val (Some (mkField (fld_x fld) (fld_y fld) v0 v1 v2 v3)), w')
        | _ => (Exc IndexError, w')
        end
    | (Val None, w') => (Val None, w')
    | (Exc e, w') => (Exc e, w')
    end.
Proof.
  unfold calc_vignetting_for_field, bind.
  destruct (vloop fld (tl pupil_rays) 4 0 [0; 0; 0; 0]%float w)
    as [[[vf|]|e] w']; try reflexivity.
  destruct vf as [|v0 [|v1 [|v2 [|v3 rest]]]]; reflexivity.
Qed.

(** The bounds of one field's four searches. *)
Lemma for_field_facts (fld : Field) (w : world St) :
  fst (for_field fld w) <> Val None
  /\ (exists evs,
         calls (snd (for_field fld w)) = calls w ++ evs
         /\ newton_calls evs <= checked_traces evs
         /\ checked_traces evs <= 40)
  /\ (forall fld',
         fst (for_field fld w) = Val (Some fld') ->
         field_pos fld' = field_pos fld /\ 5 <= length pupil_rays).
Proof.
  rewrite for_field_eq.
  destruct (vig_loop_facts fld (tl pupil_rays) 4 0 [0; 0; 0; 0]%float w)
    as (Hfuel & Hval & evs & Hc & Hn & Hk).
  change (4 * default_max_iter_count) with 40 in Hk.
  destruct (vloop fld (tl pupil_rays) 4 0 [0; 0; 0; 0]%float w)
    as [[[vf|]|e] w']; cbn [fst snd] in *.
  - destruct (Hval vf eq_refl) as [Hlen Hps].
    assert (Hfive : 5 <= length pupil_rays).
    { assert (4 <= length (tl pupil_rays)) by (apply Hps; discriminate).
      destruct pupil_rays; cbn [tl length] in *; lia. }
    destruct vf as [|v0 [|v1 [|v2 [|v3 rest]]]]; try discriminate Hlen.
    cbn [fst snd]. split; [discriminate|].
    split; [exists evs; now repeat split|].
    intros fld' [= <-]. now split.
  - contradiction.
  - split; [discriminate|]. split; [exists evs; now repeat split | discriminate].
Qed.

(** X12.  [calc_vignetting_for_field] makes four searches of at most
    [max_iter_count = 10] passes each: at most 40 checked traces, and no
    more root-finder calls than checked traces.  It never runs out of fuel;
    when it returns, the position of the field is the one it had, and there
    were at least five pupil rays. *)
Theorem X12_field_vignetting_is_bounded (fld : Field) (w : world St) :
  fst (for_field fld w) <> Val None
  /\ (exists evs,
         calls (snd (for_field fld w)) = calls w ++ evs
         /\ newton_calls evs <= checked_traces evs
         /\ checked_traces evs <= 40)
  /\ (forall fld',
         fst (for_field fld w) = Val (Some fld') ->
         field_pos fld' = field_pos fld /\ 5 <= length pupil_rays).
Proof.
  destruct (for_field_facts fld w) as (Hfuel & Hcalls & Hval).
  split; [exact Hfuel|]. split; [exact Hcalls|].
  intros fld' Hret. now apply Hval.
Qed.

(** X13.  [calc_vignetting_for_field] reads [pupil_rays[1]] to
    [pupil_rays[4]]: with fewer than five pupil rays it ends with an
    exception and returns no field, and with at most one it raises
    [IndexError] before any trace is made. *)
Theorem X13_field_vignetting_needs_five_pupil_rays (fld : Field) (w : world St) :
  (length pupil_rays < 5 -> exists e, fst (for_field fld w) = Exc e)
  /\ (length pupil_rays <= 1 -> for_field fld w = (Exc IndexError, w)).
Proof.
  split.
  - intros Hlen.
    destruct (vig_loop_facts fld (tl pupil_rays) 4 0 [0; 0; 0; 0]%float w)
      as (Hfuel & Hval & _).
    rewrite for_field_eq.
    destruct (vloop fld (tl pupil_rays) 4 0 [0; 0; 0; 0]%float w)
      as [[[vf|]|e] w']; cbn [fst snd] in *.
    + exfalso. destruct (Hval vf eq_refl) as [_ Hps].
      assert (4 <= length (tl pupil_rays)) by (apply Hps; discriminate).
      destruct pupil_rays; cbn [tl length] in *; lia.
    + contradiction.
    + now exists e.
  - intros Hlen. rewrite for_field_eq, vig_loop_pass.
    destruct pupil_rays as [|p0 [|p1 rest]]; cbn [length] in Hlen;
      [reflexivity | reflexivity | lia].
Qed.

(** A field whose four starting rays pass unobstructed, under a floating
    stop. *)
Lemma for_field_clear
      (fld : Field) (w : world St) (p0 p1 p2 p3 p4 : pupil)
        (rest : list pupil) :
  stop_surface = None ->
  (forall c s, exists traced, fst (trace_field fld c true s) = Traced traced) ->
  pupil_rays = p0 :: p1 :: p2 :: p3 :: p4 :: rest ->
  finite_nonzero (getc p1 X) = true -> finite_nonzero (getc p2 X) = true ->
  finite_nonzero (getc p3 Y) = true -> finite_nonzero (getc p4 Y) = true ->
  fst (for_field fld w)
  = Val (Some (mkField (fld_x fld) (fld_y fld) 0 0 0 0))
  /\ calls (snd (for_field fld w))
     = calls w ++ [EvTrace p1 true; EvTrace p2 true;
                   EvTrace p3 true; EvTrace p4 true].
Proof.
  intros Hstop Hok Hrays H1 H2 H3 H4.
  assert (Hpass : forall n i vf start (w0 : world St),
             nth_error (tl pupil_rays) i = Some start ->
             finite_nonzero (getc start (axis_of i)) = true ->
             (i <? length vf) = true ->
             vloop fld (tl pupil_rays) (S n) i vf w0
             = vloop fld (tl pupil_rays) n (S i) (replace_at vf i 0%float)
                     (mkWorld (snd (trace_field fld start true (tracer w0)))
                              (calls w0 ++ [EvTrace start true]))).
  { intros n i vf start w0 Hnth Hfin Hi. rewrite vig_loop_pass, Hnth, Hstop.
    destruct (Hok start (tracer w0)) as (traced & Htr).
    rewrite (calc_floating_clear (trace_field fld) newton ifcs (axis_of i) start
               default_max_iter_count w0 traced); [|cbv; lia | exact Hfin | exact Htr].
    now rewrite Hi. }
  rewrite for_field_eq.
  rewrite (Hpass 3 0 _ p1), (Hpass 2 1 _ p2), (Hpass 1 2 _ p3), (Hpass 0 3 _ p4);
    try (rewrite Hrays; reflexivity); try assumption; try reflexivity.
  cbn [vig_loop ret replace_at firstn skipn app fst snd calls].
  split; [reflexivity|]. now rewrite <- !app_assoc.
Qed.

(** X14.  With a floating stop, a tracer whose checked traces of the field
    never fail, and pupil rays 1 to 4 whose searched components (x, x, y, y)
    are finite and not zero, [calc_vignetting_for_field] sets all four
    vignetting factors to exactly 0; it makes the four checked traces from
    these pupil rays, in order, and never calls the root finder. *)
Theorem X14_unobstructed_field_gets_zero_factors
        (fld : Field) (w : world St) (p0 p1 p2 p3 p4 : pupil)
        (rest : list pupil) :
  stop_surface = None ->
  (forall c s, exists traced, fst (trace_field fld c true s) = Traced traced) ->
  pupil_rays = p0 :: p1 :: p2 :: p3 :: p4 :: rest ->
  finite_nonzero (getc p1 X) = true -> finite_nonzero (getc p2 X) = true ->
  finite_nonzero (getc p3 Y) = true -> finite_nonzero (getc p4 Y) = true ->
  fst (for_field fld w)
  = Val (Some (mkField (fld_x fld) (fld_y fld) 0 0 0 0))
  /\ calls (snd (for_field fld w))
     = calls w ++ [EvTrace p1 true; EvTrace p2 true;
                   EvTrace p3 true; EvTrace p4 true].
Proof.
  intros Hstop Hok Hrays H1 H2 H3 H4.
  destruct (for_field_clear fld w p0 p1 p2 p3 p4 rest Hstop Hok Hrays H1 H2 H3 H4)
    as [Hval Hcalls].
  split; [exact Hval | exact Hcalls].
Qed.

Lemma vig_from_pass (n fi : nat) (fields : list Field) (w : world St) :
  vig_from (S n) fi fields w =
    match nth_error fields fi with
    | Some fld =>
        match for_field fld w with
        | (Val (Some fld'), w') => vig_from n (S fi) (replace_at fields fi fld') w'
        | (Val None, w') => (Val None, fields, w')
        | (Exc e, w') => (Exc e, fields, w')
        end
    | None => (Exc IndexError, fields, w)
    end.
Proof. reflexivity. Qed.

Lemma vig_from_facts :
  forall (n fi : nat) (fields : list Field) (w : world St),
    fi + n <= length fields ->
    let out := vig_from n fi fields w in
    fst (fst out) <> Val None
    /\ length (snd (fst out)) = length fields
    /\ map field_pos (snd (fst out)) = map field_pos fields
    /\ (exists evs,
           calls (snd out) = calls w ++ evs
           /\ newton_calls evs <= checked_traces evs
           /\ checked_traces evs <= 40 * n)
    /\ (forall e, fst (fst out) = Exc e ->
                  exists k, fi <= k < fi + n
                            /\ skipn k (snd (fst out)) = skipn k fields).
Proof.
  induction n as [|n IH]; intros fi fields w Hlen out; subst out.
  - cbn [set_vig_from fst snd]. split; [discriminate|].
    split; [reflexivity|]. split; [reflexivity|]. split; [|discriminate].
    exists []. rewrite app_nil_r. cbn. repeat split; lia.
  - rewrite vig_from_pass.
    destruct (nth_error fields fi) as [fld|] eqn:Efld.
    2:{ apply nth_error_None in Efld. lia. }
    destruct (for_field_facts fld w)
      as (Hfuel & (evs1 & Hc1 & Hn1 & Hk1) & Hpos).
    destruct (for_field fld w) as [[[fld'|]|e] w'] eqn:Ef; cbn [fst snd] in *.
    + destruct (Hpos fld' eq_refl) as [Hp _].
      assert (Hfi : fi < length fields) by lia.
      destruct (IH (S fi) (replace_at fields fi fld') w')
        as (H1 & H2 & H3 & (evs2 & Hc2 & Hn2 & Hk2) & H5).
      { rewrite replace_at_length by exact Hfi. lia. }
      split; [exact H1|].
      split; [now rewrite H2, replace_at_length|].
      split; [now rewrite H3, (replace_at_map field_pos fields fi fld fld' Efld Hp)|].
      split.
      * exists (evs1 ++ evs2). rewrite Hc2, Hc1, <- app_assoc.
        rewrite newton_calls_app, checked_traces_app. repeat split; lia.
      * intros e He. destruct (H5 e He) as (k & Hk & Hskip).
        exists k. split; [lia|]. rewrite Hskip.
        replace k with ((k - S fi) + S fi) by lia.
        rewrite <- !skipn_skipn. now rewrite replace_at_skipn.
    + contradiction.
    + split; [discriminate|]. split; [reflexivity|]. split; [reflexivity|].
      split.
      * exists evs1. repeat split; [exact Hc1 | lia | lia].
      * intros e' _. exists fi. split; [lia | reflexivity].
Qed.

Local Abbreviation vig_all :=
  (set_vig trace_field newton ifcs stop_surface pupil_rays).

(** X15.  [set_vig] keeps the number of fields and the position of every
    field, whether it returns or raises; it never runs out of fuel, makes at
    most 40 checked traces per field, and calls the root finder no more
    often than it makes checked traces. *)
Theorem X15_set_vig_keeps_the_fields (fields : list Field) (w : world St) :
  let out := vig_all fields w in
  fst (fst out) <> Val None
  /\ length (snd (fst out)) = length fields
  /\ map field_pos (snd (fst out)) = map field_pos fields
  /\ exists evs,
      calls (snd out) = calls w ++ evs
      /\ newton_calls evs <= checked_traces evs
      /\ checked_traces evs <= 40 * length fields.
Proof.
  intros out. subst out. unfold set_vig.
  destruct (vig_from_facts (length fields) 0 fields w (le_n _))
    as (H1 & H2 & H3 & H4 & _).
  split; [exact H1|]. split; [exact H2|]. split; [exact H3 | exact H4].
Qed.

Lemma replace_at_cons {A : Type} (x : A) (l : list A) (i : nat) (v : A) :
  replace_at (x :: l) (S i) v = x :: replace_at l i v.
Proof. reflexivity. Qed.

Lemma nth_error_replace_at_same {A : Type} (l : list A) (v : A) :
  forall i : nat, i < length l -> nth_error (replace_at l i v) i = Some v.
Proof.
  induction l as [|x l IH]; intros [|i] Hi; cbn [length] in Hi; try lia.
  - reflexivity.
  - rewrite replace_at_cons. cbn [nth_error]. apply IH. lia.
Qed.

Lemma nth_error_replace_at_other {A : Type} (l : list A) (v : A) :
  forall i j : nat,
    i < length l -> j <> i -> nth_error (replace_at l i v) j = nth_error l j.
Proof.
  induction l as [|x l IH]; intros [|i] [|j] Hi Hj; cbn [length] in Hi;
    try lia; try reflexivity.
  rewrite replace_at_cons. cbn [nth_error]. apply IH; lia.
Qed.

(** The loop over the fields from index [fi] on leaves the fields before
    [fi] alone. *)
Lemma vig_from_before :
  forall (n fi : nat) (fields : list Field) (w : world St) (j : nat),
    j < fi ->
    nth_error (snd (fst (vig_from n fi fields w))) j = nth_error fields j.
Proof.
  induction n as [|n IH]; intros fi fields w j Hj; [reflexivity|].
  rewrite vig_from_pass.
  destruct (nth_error fields fi) as [fld|] eqn:Efld; [|reflexivity].
  destruct (for_field fld w) as [[[fld'|]|e] w']; try reflexivity.
  rewrite IH by lia. apply nth_error_replace_at_other; [|lia].
  apply nth_error_Some. congruence.
Qed.

(** Where an exception of the loop over the fields comes from. *)
Lemma vig_from_exception :
  forall (n fi : nat) (fields : list Field) (w : world St) (e : exn),
    fst (fst (vig_from n fi fields w)) = Exc e ->
    (exists k fld wk,
        fi <= k < fi + n
        /\ nth_error fields k = Some fld
        /\ for_field fld wk = (Exc e, snd (vig_from n fi fields w))
        /\ skipn k (snd (fst (vig_from n fi fields w))) = skipn k fields
        /\ forall j, fi <= j < k ->
                     exists fj wj fj',
                       nth_error fields j = Some fj
                       /\ fst (for_field fj wj) = Val (Some fj')
                       /\ nth_error (snd (fst (vig_from n fi fields w))) j
                          = Some fj')
    \/ (e = IndexError /\ length fields < fi + n).
Proof.
  induction n as [|n IH]; intros fi fields w e; [discriminate|].
  rewrite vig_from_pass.
  destruct (nth_error fields fi) as [fld|] eqn:Efld.
  2:{ cbn [fst snd]. intros [= <-]. right. split; [reflexivity|].
      apply nth_error_None in Efld. lia. }
  assert (Hfi : fi < length fields) by (apply nth_error_Some; congruence).
  destruct (for_field fld w) as [[[fld'|]|e'] w'] eqn:Ef; cbn [fst snd].
  - intros He. pose proof (vig_from_before n (S fi) (replace_at fields fi fld') w')
      as Hbefore.
    destruct (IH (S fi) (replace_at fields fi fld') w' e He)
      as [(k & fldk & wk & Hk & Hnth & Hraise & Hskip & Hdone) | [-> Hlen]].
    + left. exists k, fldk, wk. split; [lia|]. split.
      { rewrite nth_error_replace_at_other in Hnth by lia. exact Hnth. }
      split; [exact Hraise|]. split.
      { rewrite Hskip. replace k with ((k - S fi) + S fi) by lia.
        rewrite <- !skipn_skipn. now rewrite replace_at_skipn. }
      intros j Hj. destruct (Nat.eq_dec j fi) as [-> | Hne].
      * exists fld, w, fld'. split; [exact Efld|]. split; [now rewrite Ef|].
        rewrite Hbefore by lia. now apply nth_error_replace_at_same.
      * destruct (Hdone j) as (fj & wj & fj' & H1 & H2 & H3); [lia|].
        exists fj, wj, fj'. split; [|now split].
        rewrite nth_error_replace_at_other in H1 by lia. exact H1.
    + right. split; [reflexivity|].
      rewrite replace_at_length in Hlen by exact Hfi. lia.
  - discriminate.
  - intros [= <-]. left. exists fi, fld, w. split; [lia|].
    split; [exact Efld|]. split; [exact Ef|]. split; [reflexivity|].
    intros j Hj. lia.
Qed.

(** X16.  When [set_vig] ends with an exception, the exception was raised
    by the search of one field, at some index [k] (the calls end where that
    search ended): that field and all later ones are as they were, and every
    field before [k] holds the result of its own, completed, search. *)
Theorem X16_set_vig_exception_leaves_later_fields
        (fields : list Field) (w : world St) (e : exn) :
  fst (fst (vig_all fields w)) = Exc e ->
  exists k fld wk,
    nth_error fields k = Some fld
    /\ for_field fld wk = (Exc e, snd (vig_all fields w))
    /\ skipn k (snd (fst (vig_all fields w))) = skipn k fields
    /\ forall j, j < k ->
                 exists fj wj fj',
                   nth_error fields j = Some fj
                   /\ fst (for_field fj wj) = Val (Some fj')
                   /\ nth_error (snd (fst (vig_all fields w))) j = Some fj'.
Proof.
  intros He. unfold set_vig in *.
  destruct (vig_from_exception (length fields) 0 fields w e He)
    as [(k & fld & wk & Hk & Hnth & Hraise & Hskip & Hdone) | [_ Hlen]];
    [|cbn in Hlen; lia].
  exists k, fld, wk. split; [exact Hnth|]. split; [exact Hraise|].
  split; [exact Hskip|]. intros j Hj. apply Hdone. lia.
Qed.

Lemma replace_at_middle (done todo : list Field) (f v : Field) :
  replace_at (done ++ f :: todo) (length done) v = done ++ v :: todo.
Proof.
  unfold replace_at. induction done as [|d done IH]; [reflexivity|].
  cbn [length app firstn skipn] in *. cbn [skipn] in IH. now rewrite IH.
Qed.

(** The field with all four vignetting factors 0. *)
Definition unvignetted (fld : Field) : Field :=
  mkField (fld_x fld) (fld_y fld) 0 0 0 0.

Lemma vig_from_clear (p0 p1 p2 p3 p4 : pupil) (rest : list pupil) :
  stop_surface = None ->
  pupil_rays = p0 :: p1 :: p2 :: p3 :: p4 :: rest ->
  finite_nonzero (getc p1 X) = true -> finite_nonzero (getc p2 X) = true ->
  finite_nonzero (getc p3 Y) = true -> finite_nonzero (getc p4 Y) = true ->
  forall (todo done : list Field) (w : world St),
    (forall fld c s, In fld todo ->
                     exists traced, fst (trace_field fld c true s) = Traced traced) ->
    fst (vig_from (length todo) (length done) (done ++ todo) w)
    = (Val (Some tt), done ++ map unvignetted todo)
    /\ exists evs,
        calls (snd (vig_from (length todo) (length done) (done ++ todo) w))
          = calls w ++ evs
        /\ checked_traces evs = 4 * length todo
        /\ newton_calls evs = 0.
Proof.
  intros Hstop Hrays H1 H2 H3 H4.
  induction todo as [|f todo IH]; intros done w Hok.
  - cbn [set_vig_from length map fst snd]. split; [reflexivity|].
    exists []. rewrite app_nil_r. now repeat split.
  - cbn [length]. rewrite vig_from_pass.
    assert (Hnth : nth_error (done ++ f :: todo) (length done) = Some f).
    { rewrite nth_error_app2 by lia. now rewrite Nat.sub_diag. }
    rewrite Hnth.
    destruct (for_field_clear f w p0 p1 p2 p3 p4 rest Hstop
                (fun c s => Hok f c s (or_introl eq_refl)) Hrays H1 H2 H3 H4)
      as [Hval Hcalls].
    destruct (for_field f w) as [r w1]. cbn [fst snd] in Hval, Hcalls. subst r.
    rewrite replace_at_middle. fold (unvignetted f).
    change (done ++ unvignetted f :: todo)
      with (done ++ [unvignetted f] ++ todo).
    rewrite app_assoc.
    replace (S (length done)) with (length (done ++ [unvignetted f]))
      by (rewrite length_app; cbn; lia).
    destruct (IH (done ++ [unvignetted f]) w1
                 (fun fld c s Hin => Hok fld c s (or_intror Hin)))
      as (Hres & evs & Hc & Hk & Hn).
    split.
    + rewrite Hres. cbn [map]. now rewrite <- app_assoc.
    + exists ([EvTrace p1 true; EvTrace p2 true; EvTrace p3 true; EvTrace p4 true]
              ++ evs).
      rewrite Hc, Hcalls, <- app_assoc.
      rewrite checked_traces_app, newton_calls_app, Hk, Hn.
      split; [reflexivity|]. split; [cbn; lia | reflexivity].
Qed.

(** X17.  With a floating stop, a tracer whose checked traces never fail
    for any of the fields, and pupil rays 1 to 4 whose searched components
    are finite and not zero, [set_vig] returns normally and leaves every
    field with all four vignetting factors exactly 0, after four checked
    traces per field and no call of the root finder. *)
Theorem X17_set_vig_unobstructed_fields_get_zero_factors
        (fields : list Field) (w : world St) (p0 p1 p2 p3 p4 : pupil)
        (rest : list pupil) :
  stop_surface = None ->
  (forall fld c s, In fld fields ->
                   exists traced, fst (trace_field fld c true s) = Traced traced) ->
  pupil_rays = p0 :: p1 :: p2 :: p3 :: p4 :: rest ->
  finite_nonzero (getc p1 X) = true -> finite_nonzero (getc p2 X) = true ->
  finite_nonzero (getc p3 Y) = true -> finite_nonzero (getc p4 Y) = true ->
  fst (vig_all fields w) = (Val (Some tt), map unvignetted fields)
  /\ exists evs,
      calls (snd (vig_all fields w)) = calls w ++ evs
      /\ checked_traces evs = 4 * length fields
      /\ newton_calls evs = 0.
Proof.
  intros Hstop Hok Hrays H1 H2 H3 H4. unfold set_vig.
  exact (vig_from_clear p0 p1 p2 p3 p4 rest Hstop Hrays H1 H2 H3 H4
           fields [] w Hok).
Qed.

End VignettingFacts.


(** Dividing a zero by a finite nonzero number and subtracting the quotient
    from 1 gives exactly 1. *)
Lemma one_minus_zero_div (z c0 : float) :
  (z =? 0)%float = true -> finite_nonzero c0 = true ->
  (1 - z / c0)%float = 1%float.
Proof.
  intros Hz Hfin. apply Prim2SF_inj. rewrite sub_spec, div_spec.
  unfold finite_nonzero in Hfin.
  destruct (Prim2SF c0) as [| | |s m e]; try discriminate Hfin.
  destruct (eqb_zero_cases z Hz) as [-> | ->]; destruct s; reflexivity.
Qed.

(** X18.  When the search ends at a coordinate whose active-axis component
    is zero (the value a pupil-ray iteration falls back to when its
    objective raises a trace error) and the starting direction's component
    is finite and not zero, the vignetting factor returned is exactly 1. *)
Theorem X18_zero_coordinate_gives_factor_one
        {St : Type} (trace_base : pupil -> bool -> St -> TraceOutcome * St)
        (newton : float -> float -> solver) (ifcs : list Interface)
        (stop_surface : option nat) (xy : axis) (start_dir : pupil)
        (max_iter_count : nat) (w w' : world St) (st : search_state) :
  vignetted_search trace_base newton ifcs stop_surface xy start_dir
                   max_iter_count w = (Val (Some st), w') ->
  (getc (rel_p1 st) xy =? 0)%float = true ->
  finite_nonzero (getc start_dir xy) = true ->
  exists pkg,
    calc_vignetted_ray trace_base newton ifcs stop_surface xy start_dir
                       max_iter_count w
    = (Val (Some (1%float, last_indx st, pkg)), w').
Proof.
  intros Hsearch Hz Hfin.
  pose proof (loop_exit trace_base newton ifcs stop_surface xy max_iter_count
                max_iter_count (init_search start_dir) st w) as Hexit.
  fold (vignetted_search trace_base newton ifcs stop_surface xy start_dir
          max_iter_count w) in Hexit.
  rewrite Hsearch in Hexit. destruct (Hexit eq_refl) as [_ [-> | Hpkg]].
  - exfalso. cbn [init_search rel_p1] in Hz. unfold finite_nonzero in Hfin.
    destruct (eqb_zero_cases _ Hz) as [H0 | H0]; rewrite H0 in Hfin;
      discriminate Hfin.
  - destruct (ray_pkg st) as [pkg|] eqn:Ep; [|contradiction].
    exists pkg. rewrite calc_eq, Hsearch, Ep. unfold vig_factor.
    now rewrite (one_minus_zero_div _ _ Hz Hfin).
Qed.

(** ** Instances of the further properties *)

Lemma X3_witness :
  set_ape [[]; []] Scenario.two_ifcs
  = [mkIfc (-1.0e+10) 9; mkIfc (-1.0e+10) 9]%float.
Proof.
  apply (X3_set_ape_without_rays [[]; []] Scenario.two_ifcs).
  intros f [<- | [<- | []]]; reflexivity.
Defined.

Lemma X4_witness :
  mkIfc 4 9 = mkIfc 1 9
  \/ (all_reach [Scenario.field_A; Scenario.field_B] 0 = true
      /\ is_nan (max_aperture (mkIfc 4 9)) = false
      /\ (max_aperture (mkIfc 4 9) = (-1.0e+10)%float
          \/ ((0 <=? max_aperture (mkIfc 4 9))%float = true
              /\ exists f r seg,
                  In f [Scenario.field_A; Scenario.field_B] /\ In r f
                  /\ nth_error r 0 = Some seg
                  /\ max_aperture (mkIfc 4 9) = radial_height seg))).
Proof.
  apply (X4_set_ape_stores_a_number [Scenario.field_A; Scenario.field_B]
           Scenario.two_ifcs 0 (mkIfc 1 9) (mkIfc 4 9)); reflexivity.
Defined.

Lemma X5_witness :
  set_ape [Scenario.field_A; Scenario.field_B] Scenario.two_ifcs
  = set_ape [Scenario.field_B; Scenario.field_A; Scenario.field_B]
            Scenario.two_ifcs.
Proof.
  apply X5_set_ape_ignores_ray_order.
  intros r. cbn. tauto.
Defined.

Lemma X7_witness :
  exists (s : unit) (evs : list event) (pkg : ray_result),
    pkg = result_of (fst (Scenario.stop_edge_tracer
                            (rel_p1 Scenario.stop_edge_state) true s))
    /\ tracer (snd Scenario.stop_edge_search)
       = snd (Scenario.stop_edge_tracer (rel_p1 Scenario.stop_edge_state) true s)
    /\ calls (snd Scenario.stop_edge_search)
       = evs ++ [EvTrace (rel_p1 Scenario.stop_edge_state) true]
    /\ calc_vignetted_ray Scenario.stop_edge_tracer Scenario.newton50
                          Scenario.three_ifcs (Some 1) X (1, 0)%float 10
                          Scenario.w0
       = (Val (Some (vig_factor X (1, 0)%float (rel_p1 Scenario.stop_edge_state),
                     last_indx Scenario.stop_edge_state, pkg)),
          snd Scenario.stop_edge_search).
Proof.
  apply (X7_converged_ray_is_traced_from_final_coordinate
           Scenario.stop_edge_tracer Scenario.newton50 Scenario.three_ifcs
           (Some 1) X (1, 0)%float 10 Scenario.w0
           (snd Scenario.stop_edge_search) Scenario.stop_edge_state);
    [vm_compute; reflexivity | reflexivity].
Defined.

Lemma X8_witness :
  1 < length Scenario.three_ifcs
  /\ getc (rel_p1 Scenario.stop_edge_state) (other X) = 0%float.
Proof.
  apply (X8_limiting_index_is_an_interface
           Scenario.stop_edge_tracer Scenario.newton50 Scenario.three_ifcs
           (Some 1) X (1, 0)%float 10 Scenario.w0
           (snd Scenario.stop_edge_search) Scenario.stop_edge_state).
  vm_compute. reflexivity.
Defined.

Lemma X9_witness :
  (@None nat) = None
  /\ (exists traced,
         fst (Scenario.stop_edge_tracer (0.25, 0)%float true tt) = Traced traced
         /\ FullPkg (Scenario.pkg_of (Scenario.linear_ray (0.25, 0)%float))
            = FullPkg traced)
  /\ mkWorld tt [EvTrace (0.25, 0)%float true]
     = traced_world Scenario.stop_edge_tracer (0.25, 0)%float Scenario.w0
  /\ 0%float = vig_factor X (0.25, 0)%float (0.25, 0)%float.
Proof.
  apply (X9_no_limiting_index_means_clear_floating_stop
           Scenario.stop_edge_tracer Scenario.newton50 Scenario.three_ifcs
           None X (0.25, 0)%float 10 Scenario.w0).
  vm_compute. reflexivity.
Defined.

Lemma X10_witness :
  calc_vignetted_ray Scenario.stop_edge_tracer Scenario.newton50
                     Scenario.three_ifcs (Some 3) X (0.25, 0)%float 10
                     Scenario.w0
  = (Exc IndexError,
     traced_world Scenario.stop_edge_tracer (0.25, 0)%float Scenario.w0).
Proof.
  apply (X10_index_beyond_interfaces_raises
           Scenario.stop_edge_tracer Scenario.newton50 Scenario.three_ifcs
           (Some 3) X (0.25, 0)%float 10 Scenario.w0 3);
    [lia | cbn; lia | reflexivity].
Defined.

Lemma X11_witness :
  exists st w',
    vignetted_search Scenario.clear_tracer Scenario.newton50
                     Scenario.three_ifcs (Some 1) X (1, 0)%float 10 Scenario.w0
    = (Val (Some st), w')
    /\ last_indx st = Some 1
    /\ iter_count st <= 2
    /\ (exists traced, ray_pkg st = Some (FullPkg traced))
    /\ (2 <= 10 -> still_iterating st = false).
Proof.
  do 2 eexists. split; [vm_compute; reflexivity|].
  eapply (X11_unobstructed_search_stops_at_the_stop
            Scenario.clear_tracer Scenario.newton50 Scenario.three_ifcs
            (Some 1) X (1, 0)%float 10 Scenario.w0).
  - intros c s. eexists. reflexivity.
  - vm_compute. reflexivity.
  - lia.
Defined.

Lemma X14_witness :
  fst (calc_vignetting_for_field
         Scenario.field_tracer Scenario.newton50 Scenario.three_ifcs None
         Scenario.edge_rays Scenario.on_axis_field Scenario.w0)
  = Val (Some (mkField 0 0 0 0 0 0))
  /\ calls (snd (calc_vignetting_for_field
                   Scenario.field_tracer Scenario.newton50 Scenario.three_ifcs
                   None Scenario.edge_rays Scenario.on_axis_field Scenario.w0))
     = [] ++ [EvTrace (1, 0)%float true; EvTrace (-1, 0)%float true;
              EvTrace (0, 1)%float true; EvTrace (0, -1)%float true].
Proof.
  apply (X14_unobstructed_field_gets_zero_factors
           Scenario.field_tracer Scenario.newton50 Scenario.three_ifcs None
           Scenario.edge_rays Scenario.on_axis_field Scenario.w0
           (0, 0)%float (1, 0)%float (-1, 0)%float (0, 1)%float (0, -1)%float []);
    try reflexivity.
  intros c s. eexists. reflexivity.
Defined.

Lemma X16_witness :
  exists k fld wk,
    nth_error [Scenario.on_axis_field; Scenario.off_axis_field;
               Scenario.on_axis_field] k = Some fld
    /\ calc_vignetting_for_field Scenario.field_tracer Scenario.newton50
                                 Scenario.three_ifcs None Scenario.edge_rays
                                 fld wk
       = (Exc IndexError,
          snd (set_vig Scenario.field_tracer Scenario.newton50
                       Scenario.three_ifcs None Scenario.edge_rays
                       [Scenario.on_axis_field; Scenario.off_axis_field;
                        Scenario.on_axis_field] Scenario.w0))
    /\ skipn k (snd (fst (set_vig Scenario.field_tracer Scenario.newton50
                            Scenario.three_ifcs None Scenario.edge_rays
                            [Scenario.on_axis_field; Scenario.off_axis_field;
                             Scenario.on_axis_field] Scenario.w0)))
       = skipn k [Scenario.on_axis_field; Scenario.off_axis_field;
                  Scenario.on_axis_field]
    /\ forall j, j < k ->
                 exists fj wj fj',
                   nth_error [Scenario.on_axis_field; Scenario.off_axis_field;
                              Scenario.on_axis_field] j = Some fj
                   /\ fst (calc_vignetting_for_field
                             Scenario.field_tracer Scenario.newton50
                             Scenario.three_ifcs None Scenario.edge_rays fj wj)
                      = Val (Some fj')
                   /\ nth_error
                        (snd (fst (set_vig Scenario.field_tracer
                                     Scenario.newton50 Scenario.three_ifcs None
                                     Scenario.edge_rays
                                     [Scenario.on_axis_field;
                                      Scenario.off_axis_field;
                                      Scenario.on_axis_field] Scenario.w0))) j
                      = Some fj'.
Proof.
  apply (X16_set_vig_exception_leaves_later_fields
           Scenario.field_tracer Scenario.newton50 Scenario.three_ifcs None
           Scenario.edge_rays
           [Scenario.on_axis_field; Scenario.off_axis_field;
            Scenario.on_axis_field] Scenario.w0 IndexError).
  vm_compute. reflexivity.
Defined.

(** The run of the witness above: the first field is updated, the search of
    the second raises, the second and third keep their factors. *)
Example set_vig_exception_scenario :
  fst (set_vig Scenario.field_tracer Scenario.newton50 Scenario.three_ifcs None
               Scenario.edge_rays
               [Scenario.on_axis_field; Scenario.off_axis_field;
                Scenario.on_axis_field] Scenario.w0)
  = (Exc IndexError,
     [mkField 0 0 0 0 0 0; Scenario.off_axis_field; Scenario.on_axis_field]).
Proof. vm_compute. reflexivity. Qed.

Lemma X17_witness :
  fst (set_vig Scenario.field_tracer Scenario.newton50 Scenario.three_ifcs None
               Scenario.edge_rays
               [Scenario.on_axis_field; Scenario.on_axis_field] Scenario.w0)
  = (Val (Some tt),
     map unvignetted [Scenario.on_axis_field; Scenario.on_axis_field])
  /\ exists evs,
      calls (snd (set_vig Scenario.field_tracer Scenario.newton50
                          Scenario.three_ifcs None Scenario.edge_rays
                          [Scenario.on_axis_field; Scenario.on_axis_field]
                          Scenario.w0))
        = [] ++ evs
      /\ checked_traces evs = 4 * 2
      /\ newton_calls evs = 0.
Proof.
  apply (X17_set_vig_unobstructed_fields_get_zero_factors
           Scenario.field_tracer Scenario.newton50 Scenario.three_ifcs None
           Scenario.edge_rays
           [Scenario.on_axis_field; Scenario.on_axis_field] Scenario.w0
           (0, 0)%float (1, 0)%float (-1, 0)%float (0, 1)%float (0, -1)%float []);
    try reflexivity.
  intros fld c s [<- | [<- | []]]; eexists; reflexivity.
Defined.

Lemma X18_witness :
  exists pkg,
    calc_vignetted_ray Scenario.fallback_tracer Scenario.newton50
                       Scenario.three_ifcs (Some 1) X (1, 0)%float 10
                       Scenario.w0
    = (Val (Some (1%float, last_indx Scenario.fallback_state, pkg)),
       snd Scenario.fallback_search).
Proof.
  apply (X18_zero_coordinate_gives_factor_one
           Scenario.fallback_tracer Scenario.newton50 Scenario.three_ifcs
           (Some 1) X (1, 0)%float 10 Scenario.w0
           (snd Scenario.fallback_search) Scenario.fallback_state);
    [vm_compute; reflexivity | reflexivity | reflexivity].
Defined.
